(** * sp2vc: the cover aggregation of [prep_veg.py]

    A shallow embedding of [bb2percent] and [aggregate_cover] from
    [src/sp2vc/prep_veg.py], and the properties the specification states
    about them; then the functions of the same file that prepare the input
    of sp2vec, [extract_veg], [has_ab_ly], [arrange_veg], [align_sp],
    [devide] and [prep_sp2vec], with properties read off the code.

    Python objects live in a heap: a list or a pandas table is reached
    through a reference, so that what a call does to the objects of its
    caller can be stated.  Floats are IEEE binary64 numbers, taken from the
    standard library's [SpecFloat] (no rounding is idealised away). *)

From Stdlib Require Import ZArith String Ascii Bool Lia QArith.
From Stdlib Require Import Floats.SpecFloat.
From Stdlib Require Import Structures.OrderedTypeEx Sorting.Sorted.
From stdpp Require Import base option list gmap strings.

Open Scope Z_scope.

(** ** Python floats *)

Module Float64.

Definition float64 : Type := spec_float.

Definition prec : Z := 53.
Definition emax : Z := 1024.

Definition nan : float64 := S754_nan.
Definition zero : float64 := S754_zero false.

Definition is_nan (f : float64) : bool :=
  match f with S754_nan => true | _ => false end.

Definition is_inf (f : float64) : bool :=
  match f with S754_infinity _ => true | _ => false end.

(** [a + b] on two floats. *)
Definition add (a b : float64) : float64 := SFadd prec emax a b.

(** The float nearest to the integer [z] (ties to even); an integer beyond
    the range rounds to an infinity. *)
Definition of_Z (z : Z) : float64 := binary_normalize prec emax z 0 false.

(** The float nearest to [m * 10^e], for a decimal numeral with digits [m]
    and decimal exponent [e]: one rounding of the exact quotient. *)
Definition of_decimal (neg : bool) (m : Z) (e : Z) : float64 :=
  match m with
  | Zpos p =>
      if 0 <=? e
      then binary_normalize prec emax (if neg then - (m * 10 ^ e) else m * 10 ^ e) 0 false
      else SFdiv prec emax (S754_finite neg p 0)
                 (S754_finite false (Z.to_pos (10 ^ (- e))) 0)
  | _ => S754_zero neg
  end.

(** The float literals of the source. *)
Definition f87_5 : float64 := Eval vm_compute in of_decimal false 875 (-1).
Definition f62_5 : float64 := Eval vm_compute in of_decimal false 625 (-1).
Definition f37_5 : float64 := Eval vm_compute in of_decimal false 375 (-1).
Definition f17_5 : float64 := Eval vm_compute in of_decimal false 175 (-1).
Definition f6_5 : float64 := Eval vm_compute in of_decimal false 65 (-1).
Definition f0_5 : float64 := Eval vm_compute in of_decimal false 5 (-1).
Definition f0_1 : float64 := Eval vm_compute in of_decimal false 1 (-1).

End Float64.
Import Float64.

(** ** The builtin [float] on a string

    [float(s)] strips white space, reads an optional sign and then either
    [inf], [infinity] or [nan] (in any case) or a decimal numeral
    [digits [. digits] [e [sign] digits]], where single underscores may
    separate digits.  The whole string has to be used up.

    This is the builtin on ASCII strings ([is_ascii]).  Beyond ASCII the
    builtin also reads the decimal digits and the white space of Unicode,
    which are not modelled: what is stated below about the strings [float]
    reads or rejects is stated for ASCII strings. *)

Module FloatParse.

(** The white space [float] strips from an ASCII string: tab, line feed,
    vertical tab, form feed, carriage return (9 to 13) and the space (32). *)
Definition is_space (c : ascii) : bool :=
  let n := nat_of_ascii c in
  ((9 <=? n) && (n <=? 13) || (n =? 32))%nat.

(** Whether every character of [s] is an ASCII character (below 128). *)
Fixpoint is_ascii (s : string) : bool :=
  match s with
  | EmptyString => true
  | String c r => (nat_of_ascii c <? 128)%nat && is_ascii r
  end.

Definition is_digit (c : ascii) : bool :=
  let n := nat_of_ascii c in ((48 <=? n) && (n <=? 57))%nat.

Definition digit_val (c : ascii) : Z := Z.of_nat (nat_of_ascii c) - 48.

Definition to_lower (c : ascii) : ascii :=
  let n := nat_of_ascii c in
  if ((65 <=? n) && (n <=? 90))%nat then ascii_of_nat (n + 32) else c.

Fixpoint drop_spaces (l : list ascii) : list ascii :=
  match l with
  | c :: r => if is_space c then drop_spaces r else l
  | [] => []
  end.

Definition strip (l : list ascii) : list ascii :=
  rev (drop_spaces (rev (drop_spaces l))).

(** An optional sign: [true] for a minus. *)
Definition read_sign (l : list ascii) : bool * list ascii :=
  match l with
  | c :: r =>
      if Ascii.eqb c "-" then (true, r)
      else if Ascii.eqb c "+" then (false, r)
      else (false, l)
  | [] => (false, l)
  end.

(** The digits at the head of [l], most significant first in the result
    [acc ++ ...]; an underscore is read only between two digits. *)
Fixpoint digit_run (acc : list Z) (l : list ascii) : list Z * list ascii :=
  match l with
  | c :: r =>
      if is_digit c then digit_run (acc ++ [digit_val c]) r
      else if Ascii.eqb c "_" then
        match acc, r with
        | _ :: _, d :: _ => if is_digit d then digit_run acc r else (acc, l)
        | _, _ => (acc, l)
        end
      else (acc, l)
  | [] => (acc, l)
  end.

Definition digits_value (ds : list Z) : Z :=
  fold_left (fun a d => 10 * a + d) ds 0.

(** The exponent part, if there is one: [e] or [E], a sign, digits. *)
Definition read_exponent (l : list ascii) : option (Z * list ascii) :=
  match l with
  | c :: r =>
      if Ascii.eqb (to_lower c) "e" then
        let '(neg, r1) := read_sign r in
        match digit_run [] r1 with
        | ([], _) => None
        | (ds, r2) => Some (if neg then - digits_value ds else digits_value ds, r2)
        end
      else Some (0, l)
  | [] => Some (0, l)
  end.

(** The decimal numeral: [Some (m, e)] stands for [m * 10^e]. *)
Definition read_number (l : list ascii) : option (Z * Z) :=
  let '(ip, r1) := digit_run [] l in
  let '(fp, r2) :=
    match r1 with
    | c :: r => if Ascii.eqb c "." then digit_run [] r else ([], r1)
    | [] => ([], r1)
    end in
  match ip, fp with
  | [], [] => None
  | _, _ =>
      match read_exponent r2 with
      | Some (e, []) =>
          Some (digits_value (ip ++ fp), e - Z.of_nat (length fp))
      | _ => None
      end
  end.

Definition float_of_string (s : string) : option float64 :=
  let '(neg, body) := read_sign (strip (list_ascii_of_string s)) in
  let word := string_of_list_ascii (map to_lower body) in
  if (String.eqb word "inf" || String.eqb word "infinity")%bool
  then Some (S754_infinity neg)
  else if String.eqb word "nan" then Some nan
  else match read_number body with
       | Some (m, e) => Some (of_decimal neg m e)
       | None => None
       end.

End FloatParse.
Import FloatParse.

(** ** Python values and exceptions *)

(** The scalars a cell of a survey table or an element of a list holds. *)
Inductive pyval : Type :=
| PNone
| PInt (z : Z)
| PFloat (f : float64)
| PStr (s : string).

(** A column label: a string, or [None] (the default of the parameters
    [bb_scale] and [percent]). *)
Abbreviation colname := (option string).

Inductive exn_class : Type := ValueError | TypeError | OverflowError | KeyError.

(** The exceptions of the modelled code, with what their message carries. *)
Inductive pyexn : Type :=
| ValueError_float (s : string)
    (* float(s): could not convert string to float: repr(s) *)
| TypeError_float
    (* float(None): float() argument must be a string or a real number *)
| OverflowError_int
    (* float(n): int too large to convert to float *)
| KeyError_column (k : colname)
    (* veg[k] for a label that is no column *)
| ValueError_length
    (* pandas: the lengths of the columns or values do not match *)
| TypeError_operand
    (* operands that + does not take: None, or a string and a number *)
| TypeError_object.
    (* the object is not of the kind the operation is defined on *)

Definition class_of (e : pyexn) : exn_class :=
  match e with
  | ValueError_float _ | ValueError_length => ValueError
  | TypeError_float | TypeError_operand | TypeError_object => TypeError
  | OverflowError_int => OverflowError
  | KeyError_column _ => KeyError
  end.

(** A computation returns or raises. *)
Inductive outcome (A : Type) : Type :=
| Return (a : A)
| Raise (e : pyexn).
Arguments Return {A} a.
Arguments Raise {A} e.

Definition omap {A B : Type} (f : A -> B) (o : outcome A) : outcome B :=
  match o with Return a => Return (f a) | Raise e => Raise e end.

Definition obind {A B : Type} (o : outcome A) (k : A -> outcome B) : outcome B :=
  match o with Return a => k a | Raise e => Raise e end.

(** Left to right over a list; the first exception ends the traversal. *)
Fixpoint traverse {A B : Type} (f : A -> outcome B) (l : list A) : outcome (list B) :=
  match l with
  | [] => Return []
  | x :: r => obind (f x) (fun y => omap (cons y) (traverse f r))
  end.

(** [b == s] for a string literal [s]: only a string is equal to a string. *)
Definition py_eq_str (b : pyval) (s : string) : bool :=
  match b with
  | PStr t => String.eqb t s
  | _ => false
  end.

Definition float_of_int (z : Z) : outcome float64 :=
  let f := of_Z z in
  if is_inf f then Raise OverflowError_int else Return f.

(** The builtin [float(b)]. *)
Definition py_float (b : pyval) : outcome float64 :=
  match b with
  | PNone => Raise TypeError_float
  | PInt z => float_of_int z
  | PFloat f => Return f
  | PStr s =>
      match float_of_string s with
      | Some f => Return f
      | None => Raise (ValueError_float s)
      end
  end.

(** The cast of one cell by [astype(float)]: as [float], but numpy turns
    [None] into NaN. *)
Definition np_float (b : pyval) : outcome float64 :=
  match b with
  | PNone => Return nan
  | _ => py_float b
  end.

(** [pandas.isna] on a scalar. *)
Definition isna (b : pyval) : bool :=
  match b with
  | PNone => true
  | PFloat f => is_nan f
  | _ => false
  end.

(** [a + b] on cells. *)
Definition py_add (a b : pyval) : outcome pyval :=
  match a, b with
  | PFloat x, PFloat y => Return (PFloat (add x y))
  | PInt x, PInt y => Return (PInt (x + y))
  | PInt x, PFloat y => omap (fun x' => PFloat (add x' y)) (float_of_int x)
  | PFloat x, PInt y => omap (fun y' => PFloat (add x y')) (float_of_int y)
  | PStr x, PStr y => Return (PStr (x ++ y))
  | _, _ => Raise TypeError_operand
  end.

(** ** Tables *)

(** A pandas table: [nrows] index entries and the labelled columns.  The
    columns of a table built by pandas all have [nrows] cells.  Cells are
    Python objects; the dtype of a column is not modelled. *)
Record DataFrame : Type := mkFrame {
  nrows : nat;
  columns : gmap colname (list pyval)
}.

Definition set_column (d : DataFrame) (k : colname) (c : list pyval) : DataFrame :=
  mkFrame (nrows d) (<[k := c]> (columns d)).

(** [d[k]]: the cells of column [k]. *)
Definition df_getitem (d : DataFrame) (k : colname) : outcome (list pyval) :=
  match columns d !! k with
  | Some c => Return c
  | None => Raise (KeyError_column k)
  end.

(** [d[k] = c] for a sequence [c], which has to have the table's length. *)
Definition df_setitem (d : DataFrame) (k : colname) (c : list pyval) : outcome DataFrame :=
  if Nat.eqb (length c) (nrows d)
  then Return (set_column d k c)
  else Raise ValueError_length.

(** [d[k] = v] for a scalar [v], which fills the column. *)
Definition df_setitem_scalar (d : DataFrame) (k : colname) (v : pyval) : DataFrame :=
  set_column d k (replicate (nrows d) v).

(** [s[mask] = v] on the cells of a column. *)
Definition mask_assign (mask : list bool) (v : pyval) (c : list pyval) : list pyval :=
  zip_with (fun (m : bool) x => if m then v else x) mask c.

(** [d[k][mask] = v]. *)
Definition df_setitem_mask (d : DataFrame) (k : colname) (mask : list bool) (v : pyval)
  : outcome DataFrame :=
  omap (fun c => set_column d k (mask_assign mask v c)) (df_getitem d k).

Definition fill (v : pyval) (c : list pyval) : list pyval :=
  map (fun x => if isna x then v else x) c.

(** [d.fillna(values)] for a dict [values]: in each column the dict names,
    the missing cells get the value; labels that are no column are ignored. *)
Definition fillna (values : list (colname * pyval)) (d : DataFrame) : DataFrame :=
  mkFrame (nrows d)
          (fold_left (fun m kv => alter (fill (snd kv)) (fst kv) m) values (columns d)).

(** [c.astype(float)] on the cells of a column. *)
Definition astype_float (c : list pyval) : outcome (list pyval) :=
  traverse (fun x => omap PFloat (np_float x)) c.

(** [a + b] on two columns of one table, cell by cell. *)
Fixpoint series_add (a b : list pyval) : outcome (list pyval) :=
  match a, b with
  | x :: a', y :: b' =>
      obind (py_add x y) (fun z => omap (cons z) (series_add a' b'))
  | _, _ => Return []
  end.

(** ** The heap *)

Inductive obj : Type :=
| OList (l : list pyval)
| OFrame (d : DataFrame).

(** A reference is an index into the heap; a new object goes to its end. *)
Abbreviation loc := nat.
Abbreviation heap := (list obj).

(** Computations on the heap; what was written stays written when the
    computation raises. *)
Definition M (A : Type) : Type := heap -> heap * outcome A.

Definition ret {A : Type} (a : A) : M A := fun h => (h, Return a).

Definition raise {A : Type} (e : pyexn) : M A := fun h => (h, Raise e).

Definition bind {A B : Type} (c : M A) (k : A -> M B) : M B :=
  fun h =>
    match c h with
    | (h', Return a) => k a h'
    | (h', Raise e) => (h', Raise e)
    end.

Definition lift {A : Type} (o : outcome A) : M A := fun h => (h, o).

Declare Scope py_scope.
Delimit Scope py_scope with py.
Notation "x <- c ;; k" := (bind c (fun x => k))
  (at level 100, c at next level, right associativity) : py_scope.
Notation "c ;; k" := (bind c (fun _ => k))
  (at level 100, right associativity) : py_scope.
Open Scope py_scope.

Definition alloc (o : obj) : M loc := fun h => (h ++ [o], Return (length h)).

Definition get_list (l : loc) : M (list pyval) :=
  fun h =>
    match h !! l with
    | Some (OList xs) => (h, Return xs)
    | _ => (h, Raise TypeError_object)
    end.

Definition get_frame (l : loc) : M DataFrame :=
  fun h =>
    match h !! l with
    | Some (OFrame d) => (h, Return d)
    | _ => (h, Raise TypeError_object)
    end.

Definition put_frame (l : loc) (d : DataFrame) : M unit :=
  fun h => (<[l := OFrame d]> h, Return tt).

(** *** Operations of pandas on a table behind a reference *)

(** [veg[k]], read at once. *)
Definition frame_getitem (veg : loc) (k : colname) : M (list pyval) :=
  d <- get_frame veg ;;
  lift (df_getitem d k).

(** [veg[k] = c]: the table behind [veg] is written. *)
Definition frame_setitem (veg : loc) (k : colname) (c : list pyval) : M unit :=
  d <- get_frame veg ;;
  d' <- lift (df_setitem d k c) ;;
  put_frame veg d'.

Definition frame_setitem_scalar (veg : loc) (k : colname) (v : pyval) : M unit :=
  d <- get_frame veg ;;
  put_frame veg (df_setitem_scalar d k v).

(** [veg[k] = values] for a list object [values]. *)
Definition frame_setitem_list (veg : loc) (k : colname) (values : loc) : M unit :=
  c <- get_list values ;;
  frame_setitem veg k c.

(** [veg[k][mask] = v]: the column [veg[k]] is a view of the table, the
    assignment writes into the table itself (pandas without copy-on-write). *)
Definition series_setitem_mask (veg : loc) (k : colname) (mask : list bool) (v : pyval)
  : M unit :=
  d <- get_frame veg ;;
  d' <- lift (df_setitem_mask d k mask v) ;;
  put_frame veg d'.

(** [veg.fillna(values)]: a new table. *)
Definition frame_fillna (veg : loc) (values : list (colname * pyval)) : M loc :=
  d <- get_frame veg ;;
  alloc (OFrame (fillna values d)).

(** [veg[k].tolist()]: a new list. *)
Definition series_tolist (veg : loc) (k : colname) : M loc :=
  c <- frame_getitem veg k ;;
  alloc (OList c).

(** [pandas.DataFrame(data)] for a dict of lists: the lists have to agree in
    length. *)
Definition DataFrame_new (data : list (colname * list pyval)) : M loc :=
  let n := match data with [] => 0%nat | (_, c) :: _ => length c end in
  if forallb (fun kc => Nat.eqb (length (snd kc)) n) data
  then alloc (OFrame (mkFrame n (list_to_map data)))
  else raise ValueError_length.

(** ** The source: [bb2percent] *)

Open Scope string_scope.

(** [[f(b) for b in bb]]: a new list; [bb] is read, not written. *)
Definition comprehension (f : pyval -> outcome pyval) (bb : loc) : M loc :=
  xs <- get_list bb ;;
  ys <- lift (traverse f xs) ;;
  alloc (OList ys).

(** [v if b == c else b] *)
Definition replace_code (c : string) (v : float64) (b : pyval) : pyval :=
  if py_eq_str b c then PFloat v else b.

(** [0.1 if b == "r" else float(b)] *)
Definition replace_r_or_float (b : pyval) : outcome pyval :=
  if py_eq_str b "r" then Return (PFloat f0_1) else omap PFloat (py_float b).

(** Lines 111 to 119: seven comprehensions, each bound to [bb] anew. *)
Definition bb2percent (bb : loc) : M loc :=
  (* bb = [87.5 if b=="5" else b for b in bb] *)
  bb <- comprehension (fun b => Return (replace_code "5" f87_5 b)) bb ;;
  bb <- comprehension (fun b => Return (replace_code "4" f62_5 b)) bb ;;
  bb <- comprehension (fun b => Return (replace_code "3" f37_5 b)) bb ;;
  bb <- comprehension (fun b => Return (replace_code "2" f17_5 b)) bb ;;
  bb <- comprehension (fun b => Return (replace_code "1" f6_5 b)) bb ;;
  bb <- comprehension (fun b => Return (replace_code "+" f0_5 b)) bb ;;
  (* bb = [0.1 if b=="r" else float(b) for b in bb] *)
  bb <- comprehension replace_r_or_float bb ;;
  (* return bb *)
  ret bb.

(** ** The source: [aggregate_cover] *)

(** Modelled from the spec: the source of [aggregate_cover] breaks off inside
    its last assignment, [veg['cover'] = veg['].  Step 5 of the specification
    and the docstring of the function give the rest: the cover is the sum of
    the converted codes and the percentages, and the table is returned. *)
Definition aggregate_cover_tail (veg : loc) : M loc :=
  b <- frame_getitem veg (Some "bb_scale") ;;
  p <- frame_getitem veg (Some "percent") ;;
  c <- lift (series_add b p) ;;
  frame_setitem veg (Some "cover") c ;;
  ret veg.

(** Lines 141 to 151.  The parameter [veg] refers to the table of the
    caller until line 144 binds it to the table that [fillna] returns. *)
Definition aggregate_cover (veg : loc) (bb_scale percent : colname) : M loc :=
  (* if percent is None: veg[percent] = np.nan *)
  match percent with
  | None => frame_setitem_scalar veg percent (PFloat nan)
  | Some _ => ret tt
  end ;;
  (* veg[bb_scale][~veg[percent].isna()] = 0 *)
  _ <- frame_getitem veg bb_scale ;;
  pc <- frame_getitem veg percent ;;
  series_setitem_mask veg bb_scale (map (fun v => negb (isna v)) pc) (PInt 0) ;;
  (* veg = veg.fillna({'bb_scale': 0, 'percent': 0}) *)
  veg <- frame_fillna veg [(Some "bb_scale", PInt 0); (Some "percent", PInt 0)] ;;
  (* bb_values = bb2percent(veg[bb_scale].tolist()) *)
  l <- series_tolist veg bb_scale ;;
  bb_values <- bb2percent l ;;
  (* veg['bb_scale'] = bb_values *)
  frame_setitem_list veg (Some "bb_scale") bb_values ;;
  (* veg['percent'] = veg['percent'].astype(float) *)
  p <- frame_getitem veg (Some "percent") ;;
  p <- lift (astype_float p) ;;
  frame_setitem veg (Some "percent") p ;;
  (* veg['cover'] = veg[' ... *)
  aggregate_cover_tail veg.

(** ** Calls from a caller that holds plain sequences *)

(** [bb2percent(codes)] on a list of its own, and the list it returns. *)
Definition codeToPercent (codes : list pyval) : outcome (list pyval) :=
  snd ((bb <- alloc (OList codes) ;;
        out <- bb2percent bb ;;
        get_list out) []).

(** The two sequences as the columns [bb_scale] and [percent] of a new
    table, [aggregate_cover] on it, and the column [cover] of the result. *)
Definition aggregateCover (codes percents : list pyval) : outcome (list pyval) :=
  snd ((veg <- DataFrame_new [(Some "bb_scale", codes); (Some "percent", percents)] ;;
        out <- aggregate_cover veg (Some "bb_scale") (Some "percent") ;;
        frame_getitem out (Some "cover")) []).

(** ** What the calls compute, as functions of the values

    The heap is left out here; [bb2percent_run] and [aggregate_cover_run]
    below show that the code computes these. *)

Notation "x <~ c ;; k" := (obind c (fun x => k))
  (at level 100, c at next level, right associativity) : py_scope.

(** The lists the first six comprehensions of [bb2percent] build. *)
Definition bb_passes (xs : list pyval) : list (list pyval) :=
  let l1 := map (replace_code "5" f87_5) xs in
  let l2 := map (replace_code "4" f62_5) l1 in
  let l3 := map (replace_code "3" f37_5) l2 in
  let l4 := map (replace_code "2" f17_5) l3 in
  let l5 := map (replace_code "1" f6_5) l4 in
  let l6 := map (replace_code "+" f0_5) l5 in
  [l1; l2; l3; l4; l5; l6].

Definition bb_pass6 (xs : list pyval) : list pyval :=
  map (replace_code "+" f0_5)
    (map (replace_code "1" f6_5)
       (map (replace_code "2" f17_5)
          (map (replace_code "3" f37_5)
             (map (replace_code "4" f62_5)
                (map (replace_code "5" f87_5) xs))))).

(** The list [bb2percent] returns for a list with the elements [xs]. *)
Definition bb2percent_value (xs : list pyval) : outcome (list pyval) :=
  traverse replace_r_or_float (bb_pass6 xs).

(** The table of the docstring. *)
Definition bb_table : list (string * float64) :=
  [("5", f87_5); ("4", f62_5); ("3", f37_5); ("2", f17_5);
   ("1", f6_5); ("+", f0_5); ("r", f0_1)].

Fixpoint table_lookup (s : string) (t : list (string * float64)) : option float64 :=
  match t with
  | [] => None
  | (c, v) :: r => if String.eqb s c then Some v else table_lookup s r
  end.

Definition reserved (s : string) : bool :=
  match table_lookup s bb_table with Some _ => true | None => false end.

(** The seven comprehensions on one element, in one step. *)
Definition bb_cell (b : pyval) : outcome pyval :=
  match b with
  | PStr s =>
      match table_lookup s bb_table with
      | Some v => Return (PFloat v)
      | None => omap PFloat (py_float b)
      end
  | _ => omap PFloat (py_float b)
  end.

(** [if percent is None: veg[percent] = np.nan] *)
Definition percent_default (d : DataFrame) (percent : colname) : DataFrame :=
  match percent with
  | None => df_setitem_scalar d percent (PFloat nan)
  | Some _ => d
  end.

(** [veg[bb_scale][~veg[percent].isna()] = 0] *)
Definition zero_where_percent (d : DataFrame) (bb_scale percent : colname)
  : outcome DataFrame :=
  _ <~ df_getitem d bb_scale ;;
  pc <~ df_getitem d percent ;;
  df_setitem_mask d bb_scale (map (fun v => negb (isna v)) pc) (PInt 0).

(** The caller's table after a call of [aggregate_cover]. *)
Definition caller_after (d : DataFrame) (bb_scale percent : colname) : DataFrame :=
  let d0 := percent_default d percent in
  match zero_where_percent d0 bb_scale percent with
  | Return d1 => d1
  | Raise _ => d0
  end.

(** The lines of [aggregate_cover] after [fillna], on the new table. *)
Definition convert_and_sum (d : DataFrame) (bb_scale : colname) : outcome DataFrame :=
  l <~ df_getitem d bb_scale ;;
  bb_values <~ bb2percent_value l ;;
  d <~ df_setitem d (Some "bb_scale") bb_values ;;
  p <~ df_getitem d (Some "percent") ;;
  p <~ astype_float p ;;
  d <~ df_setitem d (Some "percent") p ;;
  b <~ df_getitem d (Some "bb_scale") ;;
  p <~ df_getitem d (Some "percent") ;;
  c <~ series_add b p ;;
  df_setitem d (Some "cover") c.

(** The table [aggregate_cover] returns. *)
Definition aggregate_value (d : DataFrame) (bb_scale percent : colname)
  : outcome DataFrame :=
  d1 <~ zero_where_percent (percent_default d percent) bb_scale percent ;;
  convert_and_sum (fillna [(Some "bb_scale", PInt 0); (Some "percent", PInt 0)] d1)
                  bb_scale.

(** ** The operations as the specification words them *)

Module Spec.

(** One lookup per code: the table first, then the decimal value; a
    missing code is no cover. *)
Definition codeToPercent1 (c : pyval) : outcome float64 :=
  match c with
  | PNone => Return zero
  | PStr s =>
      match table_lookup s bb_table with
      | Some v => Return v
      | None => py_float c
      end
  | _ => py_float c
  end.

(** Step 1: where the percent is there, the code is made null. *)
Definition suppress_codes (codes percents : list pyval) : list pyval :=
  zip_with (fun c p => if isna p then c else PNone) codes percents.

(** Step 2: the remaining nulls become 0. *)
Definition nulls_to_zero (l : list pyval) : list pyval := fill (PInt 0) l.

(** Steps 3 to 5. *)
Definition aggregateCover (codes percents : list pyval) : outcome (list pyval) :=
  let codes := nulls_to_zero (suppress_codes codes percents) in
  let percents := nulls_to_zero percents in
  cs <~ traverse codeToPercent1 codes ;;
  ps <~ traverse np_float percents ;;
  Return (map PFloat (zip_with add cs ps)).

(** The cover of one record. *)
Definition cover1 (c p : pyval) : outcome float64 :=
  let c := if isna p then c else PNone in
  x <~ codeToPercent1 (if isna c then PInt 0 else c) ;;
  y <~ np_float (if isna p then PInt 0 else p) ;;
  Return (add x y).

End Spec.

(** The tables pandas builds: every column has as many cells as the table
    has rows. *)
Definition frame_wf (d : DataFrame) : Prop :=
  forall k c, columns d !! k = Some c -> length c = nrows d.

(** What a call leaves of the heap it found, but for the object at [v]. *)
Definition heap_kept (v : loc) (h h' : heap) : Prop :=
  forall l o, l <> v -> h !! l = Some o -> h' !! l = Some o.

(** Floats of the examples. *)
Definition f5 : float64 := Eval vm_compute in of_Z 5.
Definition f10 : float64 := Eval vm_compute in of_Z 10.
Definition f20 : float64 := Eval vm_compute in of_Z 20.
Definition f12_5 : float64 := Eval vm_compute in of_decimal false 125 (-1).

(** ** Elements that [bb2percent] converts *)

(** Whether the seven comprehensions get through the element [b]: a string
    has to be one of the seven codes or a numeral of [float], an integer has
    to be in the range of the floats, and None is not converted.  For a
    string this is what the builtin does if the string is ASCII. *)
Definition converts (b : pyval) : bool :=
  match b with
  | PNone => false
  | PInt z => negb (is_inf (of_Z z))
  | PFloat _ => true
  | PStr s =>
      reserved s || match float_of_string s with Some _ => true | None => false end
  end.

(** An element whose characters, if it is a string, are all ASCII. *)
Definition ascii_cell (b : pyval) : bool :=
  match b with
  | PStr s => is_ascii s
  | _ => true
  end.

(** ** The source: [extract_veg], [has_ab_ly] and [align_sp]

    These functions read the table they are given and write nothing, so
    they are functions of the table. *)

(** [d[cols]] for a list of labels: a new table with these columns of [d].
    A label that is no column raises KeyError; pandas names all the missing
    labels in it, the exception here carries the first.  A label that is
    listed twice gives the column twice in pandas, once here. *)
Definition df_getitem_list (d : DataFrame) (cols : list colname) : outcome DataFrame :=
  cs <~ traverse (fun k => omap (pair k) (df_getitem d k)) cols ;;
  Return (mkFrame (nrows d) (list_to_map cs)).

(** Lines 50 to 55. *)
Definition extract_veg (veg : DataFrame) (st sp ab ly : colname) : outcome DataFrame :=
  (* cols = [st, sp] *)
  let cols := [st; sp] in
  (* if ab is not None: cols.append(ab) *)
  let cols := match ab with Some _ => (cols ++ [ab])%list | None => cols end in
  (* if ly is not None: cols.append(ly) *)
  let cols := match ly with Some _ => (cols ++ [ly])%list | None => cols end in
  (* return veg[cols] *)
  df_getitem_list veg cols.

(** [k in d.columns] *)
Definition has_column (d : DataFrame) (k : colname) : bool :=
  match columns d !! k with Some _ => true | None => false end.

(** Lines 217 to 227. *)
Definition has_ab_ly (veg : DataFrame) : string :=
  let has_ab := has_column veg (Some "ab") in
  let has_ly := has_column veg (Some "ly") in
  if has_ab && has_ly then "has_both"
  else if has_ab && negb has_ly then "has_ab"
  else if negb has_ab && has_ly then "has_ly"
  else "has_none".

(** [sep.join(l)]: every item has to be a string. *)
Fixpoint str_join (sep : string) (l : list pyval) : outcome string :=
  match l with
  | [] => Return ""
  | x :: r =>
      match x with
      | PStr s =>
          match r with
          | [] => Return s
          | _ => omap (fun t => (s ++ sep ++ t)%string) (str_join sep r)
          end
      | _ => Raise TypeError_object
      end
  end.

(** Line 267: [' '.join(veg['sp'])]. *)
Definition align_sp (veg : DataFrame) : outcome string :=
  c <~ df_getitem veg (Some "sp") ;;
  str_join " " c.

(** ** The order of [sort_values] and [groupby]

    pandas sorts the cells of a column through their codes in the sorted
    list of the distinct values: numbers come by their value, an integer and
    a float alike, before strings, which come by their characters; None and
    NaN are no value and come last, in an ascending as in a descending
    column. *)

Inductive xnum : Type :=
| NegInf
| Fin (q : Q)
| PosInf.

Inductive cell_key : Type :=
| KNum (x : xnum)
| KStr (s : string)
| KNull.

(** The value of a finite float [m * 2^e], as a fraction. *)
Definition dyadic (m e : Z) : Q :=
  if (0 <=? e)%Z then Qmake (m * 2 ^ e)%Z 1 else Qmake m (Z.to_pos (2 ^ (- e))%Z).

Definition cell_key_of (v : pyval) : cell_key :=
  match v with
  | PNone => KNull
  | PInt z => KNum (Fin (inject_Z z))
  | PFloat f =>
      match f with
      | S754_nan => KNull
      | S754_zero _ => KNum (Fin 0%Q)
      | S754_infinity s => KNum (if s then NegInf else PosInf)
      | S754_finite s m e => KNum (Fin (dyadic (if s then Zneg m else Zpos m) e))
      end
  | PStr s => KStr s
  end.

Definition xnum_compare (a b : xnum) : comparison :=
  match a, b with
  | NegInf, NegInf => Eq
  | NegInf, _ => Lt
  | _, NegInf => Gt
  | PosInf, PosInf => Eq
  | PosInf, _ => Gt
  | _, PosInf => Lt
  | Fin p, Fin q => Qcompare p q
  end.

(** The order of the values in an ascending column. *)
Definition value_compare (a b : cell_key) : comparison :=
  match a, b with
  | KNum x, KNum y => xnum_compare x y
  | KNum _, _ => Lt
  | _, KNum _ => Gt
  | KStr s, KStr t => String.compare s t
  | KStr _, _ => Lt
  | _, KStr _ => Gt
  | KNull, KNull => Eq
  end.

(** The order of the cells in a column of [sort_values]; the missing cells
    are last ([na_position='last']) whatever [ascending] is. *)
Definition key_compare (ascending : bool) (a b : cell_key) : comparison :=
  match a, b with
  | KNull, KNull => Eq
  | KNull, _ => Gt
  | _, KNull => Lt
  | _, _ => if ascending then value_compare a b else value_compare b a
  end.

Definition cell_key_at (c : list pyval) (i : nat) : cell_key :=
  match c !! i with Some v => cell_key_of v | None => KNull end.

(** Rows [i] and [j] by the key columns, the first column first. *)
Fixpoint rows_compare (keys : list (list pyval * bool)) (i j : nat) : comparison :=
  match keys with
  | [] => Eq
  | (c, ascending) :: r =>
      match key_compare ascending (cell_key_at c i) (cell_key_at c j) with
      | Eq => rows_compare r i j
      | o => o
      end
  end.

(** A stable sort: [x] goes before the first element that is not less. *)
Fixpoint insert_by {A : Type} (cmp : A -> A -> comparison) (x : A) (l : list A) : list A :=
  match l with
  | [] => [x]
  | y :: r =>
      match cmp y x with
      | Lt => y :: insert_by cmp x r
      | _ => x :: l
      end
  end.

Definition sort_by {A : Type} (cmp : A -> A -> comparison) (l : list A) : list A :=
  foldr (insert_by cmp) [] l.

(** The cells of a column at the rows [idx], in the order of [idx]. *)
Fixpoint take_rows {A : Type} (idx : list nat) (c : list A) : list A :=
  match idx with
  | [] => []
  | i :: r =>
      match c !! i with
      | Some x => x :: take_rows r c
      | None => take_rows r c
      end
  end.

(** [d.sort_values(by=..., ascending=...)] for two or more key columns: a
    new table with the rows of [d] in the order of their keys, the rows with
    equal keys in the order they had.  A key that is no column raises
    KeyError.  The index of the rows is not modelled. *)
Definition sort_values (d : DataFrame) (by_ : list (colname * bool)) : outcome DataFrame :=
  keys <~ traverse (fun kb => omap (fun c => (c, snd kb)) (df_getitem d (fst kb))) by_ ;;
  let idx := sort_by (rows_compare keys) (seq 0 (nrows d)) in
  Return (mkFrame (nrows d) (take_rows idx <$> columns d)).

(** ** The source: [arrange_veg] *)

(** Lines 242 to 251.  In the last branch the table that is returned is the
    table that was given. *)
Definition arrange_veg (veg : DataFrame) : outcome DataFrame :=
  let ab_ly := has_ab_ly veg in
  if String.eqb ab_ly "has_both"
  then sort_values veg [(Some "st", true); (Some "ly", true); (Some "ab", false)]
  else if String.eqb ab_ly "has_ab"
  then sort_values veg [(Some "st", true); (Some "ab", false)]
  else if String.eqb ab_ly "has_ly"
  then sort_values veg [(Some "st", true); (Some "ly", true)]
  else Return veg.

(** ** The source: [devide] and [prep_sp2vec] *)

Definition cell_eqb (a b : pyval) : bool :=
  match value_compare (cell_key_of a) (cell_key_of b) with Eq => true | _ => false end.

(** The distinct values of a column that are not missing, each as it
    occurs first. *)
Fixpoint uniques (c : list pyval) (seen : list pyval) : list pyval :=
  match c with
  | [] => []
  | x :: r =>
      if isna x || existsb (cell_eqb x) seen
      then uniques r seen
      else x :: uniques r (x :: seen)
  end.

(** The rows of a column, from [i] on, whose cell is equal to [k]. *)
Fixpoint rows_of (k : pyval) (c : list pyval) (i : nat) : list nat :=
  match c with
  | [] => []
  | x :: r => if cell_eqb x k then i :: rows_of k r (S i) else rows_of k r (S i)
  end.

(** The groups of [d.groupby(col)] as the iteration gives them: by
    ascending key, the rows without a key left out, each group a new table
    with its rows in the order they have in [d]. *)
Definition groupby (d : DataFrame) (col : colname) : outcome (list (pyval * DataFrame)) :=
  c <~ df_getitem d col ;;
  let keys := sort_by (fun a b => value_compare (cell_key_of a) (cell_key_of b))
                      (uniques c []) in
  Return (map (fun k =>
                 let idx := rows_of k c 0 in
                 (k, mkFrame (length idx) (take_rows idx <$> columns d)))
              keys).

(** Line 283: the dict of the groups, in the order of the iteration. *)
Definition devide (df : DataFrame) (col : colname) : outcome (list (pyval * DataFrame)) :=
  groupby df col.

(** Lines 301 to 316, for [path = None]: nothing is written to a file. *)
Definition prep_sp2vec (veg : DataFrame) : outcome DataFrame :=
  (* veg = arrange_veg(veg) *)
  veg <~ arrange_veg veg ;;
  (* divided_veg = devide(veg, 'st') *)
  divided_veg <~ devide veg (Some "st") ;;
  (* sp_alignment = {site: align_sp(df) for site, df in divided_veg.items()} *)
  sp_alignment <~ traverse (fun site_df =>
                              omap (fun s => (fst site_df, PStr s))
                                   (align_sp (snd site_df)))
                           divided_veg ;;
  (* sp_alignment = pd.DataFrame(list(sp_alignment.items()), columns=['st', 'sp']) *)
  Return (mkFrame (length sp_alignment)
            (<[Some "st" := map fst sp_alignment]>
               (<[Some "sp" := map snd sp_alignment]> ∅))).

(** ** Comparisons that order *)

(** What a three-valued comparison has to satisfy to be the comparison of a
    total preorder. *)
Record cmp_laws {A : Type} (cmp : A -> A -> comparison) : Prop := {
  cmp_antisym : forall a b, cmp b a = CompOpp (cmp a b);
  cmp_eq_l : forall a b c, cmp a b = Eq -> cmp a c = cmp b c;
  cmp_lt_trans : forall a b c, cmp a b = Lt -> cmp b c = Lt -> cmp a c = Lt
}.

(** The order a stable sort by [cmp] leaves: smaller keys first, and equal
    keys in the order [R] they had. *)
Definition stable_before {A : Type} (cmp : A -> A -> comparison) (R : A -> A -> Prop)
           (a b : A) : Prop :=
  cmp a b = Lt \/ (cmp a b = Eq /\ R a b).

(** The cells of the column [b] in the rows where the column [a] has the
    value [k], in the order of the rows. *)
Fixpoint cells_where {A : Type} (k : pyval) (a : list pyval) (b : list A) : list A :=
  match a, b with
  | x :: a', y :: b' =>
      if cell_eqb x k then y :: cells_where k a' b' else cells_where k a' b'
  | _, _ => []
  end.

(** Whether a name holds a space. *)
Fixpoint has_space (s : string) : bool :=
  match s with
  | EmptyString => false
  | String c r => Ascii.eqb c " "%char || has_space r
  end.

(** * Proofs *)

(** ** The floats of the model against CPython

    [float("0.1")] is 0x1.999999999999ap-4, 2**53 + 1 rounds to the even
    neighbour, 2.4703282292062328e-324 rounds up to the smallest subnormal,
    and 0.1 + 0.2 is not 0.3. *)

Example float_of_string_tenth :
  float_of_string "0.1" = Some (S754_finite false 7205759403792794 (-56)).
Proof. vm_compute. reflexivity. Qed.

Example float_of_string_ties_to_even :
  float_of_string "9007199254740993" = Some (S754_finite false 4503599627370496 1).
Proof. vm_compute. reflexivity. Qed.

Example float_of_string_subnormal :
  float_of_string "2.4703282292062328e-324" = Some (S754_finite false 1 (-1074)).
Proof. vm_compute. reflexivity. Qed.

Example float_of_string_forms :
  map float_of_string [" 12.5 "; "1_2.5"; "125e-1"; "+12.5"; "1__2"; "12.5x"; ""; "-inf"]
  = [Some f12_5; Some f12_5; Some f12_5; Some f12_5; None; None; None;
     Some (S754_infinity true)].
Proof. vm_compute. reflexivity. Qed.

Example float_of_int_overflow :
  float_of_int (2 ^ 1024) = Raise OverflowError_int /\
  float_of_int (2 ^ 53 + 1) = Return (S754_finite false 4503599627370496 1).
Proof. split; vm_compute; reflexivity. Qed.

Example add_rounds :
  add f0_1 (of_decimal false 2 (-1)) = S754_finite false 5404319552844596 (-54) /\
  of_decimal false 3 (-1) = S754_finite false 5404319552844595 (-54).
Proof. split; vm_compute; reflexivity. Qed.

(** ** Traversals *)

Section Traverse.
Context {A B : Type}.
Implicit Types (f g : A -> outcome B) (xs : list A) (ys : list B).

Lemma traverse_return (g : A -> B) xs :
  traverse (fun x => Return (g x)) xs = Return (map g xs).
Proof.
  induction xs as [|x xs IH]; simpl; [reflexivity|].
  rewrite IH. reflexivity.
Qed.

Lemma traverse_ext_Forall f g xs :
  Forall (fun x => f x = g x) xs -> traverse f xs = traverse g xs.
Proof.
  induction 1 as [|x xs Hx _ IH]; simpl; [reflexivity|].
  rewrite Hx, IH. reflexivity.
Qed.

Lemma traverse_ext f g xs :
  (forall x, f x = g x) -> traverse f xs = traverse g xs.
Proof.
  intros H. apply traverse_ext_Forall, Forall_forall. intros x _. apply H.
Qed.

Lemma traverse_length f xs ys :
  traverse f xs = Return ys -> length ys = length xs.
Proof.
  revert ys. induction xs as [|x xs IH]; simpl; intros ys H.
  - inversion H. reflexivity.
  - destruct (f x) as [y|e]; simpl in H; [|discriminate].
    destruct (traverse f xs) as [ys'|e]; simpl in H; [|discriminate].
    inversion H. simpl. f_equal. apply IH. reflexivity.
Qed.

Lemma traverse_lookup f xs ys (i : nat) x :
  traverse f xs = Return ys -> xs !! i = Some x ->
  exists y, f x = Return y /\ ys !! i = Some y.
Proof.
  revert ys i. induction xs as [|x0 xs IH]; simpl; intros ys i H Hi.
  - destruct i; discriminate.
  - destruct (f x0) as [y0|e] eqn:Hf; simpl in H; [|discriminate].
    destruct (traverse f xs) as [ys'|e]; simpl in H; [|discriminate].
    inversion H; subst ys. destruct i as [|i]; simpl in *.
    + inversion Hi; subst. exists y0. split; [assumption|reflexivity].
    + apply (IH ys' i eq_refl Hi).
Qed.

(** The first element that raises decides the exception. *)
Lemma traverse_raise f pre x post e ys :
  traverse f pre = Return ys -> f x = Raise e ->
  traverse f (pre ++ x :: post) = Raise e.
Proof.
  revert ys. induction pre as [|p pre IH]; simpl; intros ys H Hx.
  - rewrite Hx. reflexivity.
  - destruct (f p) as [y|e']; simpl in *; [|discriminate].
    destruct (traverse f pre) as [ys'|e']; simpl in H; [|discriminate].
    rewrite (IH ys' eq_refl Hx). reflexivity.
Qed.

(** A traversal over a list with an element that raises does not return. *)
Lemma traverse_fails f pre x post e :
  f x = Raise e -> exists e', traverse f (pre ++ x :: post) = Raise e'.
Proof.
  intros Hx. induction pre as [|p pre [e' IH]]; simpl.
  - rewrite Hx. eexists. reflexivity.
  - destruct (f p) as [y|e'']; simpl; [|eexists; reflexivity].
    rewrite IH. eexists. reflexivity.
Qed.

Lemma traverse_total f xs :
  Forall (fun x => exists y, f x = Return y) xs ->
  exists ys, traverse f xs = Return ys.
Proof.
  induction 1 as [|x xs [y Hy] _ [ys IH]]; simpl.
  - eexists. reflexivity.
  - rewrite Hy, IH. eexists. reflexivity.
Qed.

End Traverse.

Lemma traverse_map {A B C : Type} (f : B -> outcome C) (g : A -> B) (xs : list A) :
  traverse f (map g xs) = traverse (fun x => f (g x)) xs.
Proof.
  induction xs as [|x xs IH]; simpl; [reflexivity|].
  rewrite IH. reflexivity.
Qed.

Lemma traverse_omap {A B C : Type} (f : A -> outcome B) (g : B -> C) (xs : list A) :
  traverse (fun x => omap g (f x)) xs = omap (map g) (traverse f xs).
Proof.
  induction xs as [|x xs IH]; simpl; [reflexivity|].
  rewrite IH. destruct (f x); simpl; [|reflexivity].
  destruct (traverse f xs); reflexivity.
Qed.

(** ** The seven comprehensions, element by element *)

Lemma seven_passes_cell (b : pyval) :
  replace_r_or_float
    (replace_code "+" f0_5
       (replace_code "1" f6_5
          (replace_code "2" f17_5
             (replace_code "3" f37_5
                (replace_code "4" f62_5 (replace_code "5" f87_5 b))))))
  = bb_cell b.
Proof.
  destruct b as [|z|f|s]; try reflexivity.
  unfold bb_cell, bb_table, table_lookup.
  unfold replace_code at 6. simpl py_eq_str.
  destruct (String.eqb s "5") eqn:E5; [reflexivity|].
  unfold replace_code at 5. simpl py_eq_str.
  destruct (String.eqb s "4") eqn:E4; [reflexivity|].
  unfold replace_code at 4. simpl py_eq_str.
  destruct (String.eqb s "3") eqn:E3; [reflexivity|].
  unfold replace_code at 3. simpl py_eq_str.
  destruct (String.eqb s "2") eqn:E2; [reflexivity|].
  unfold replace_code at 2. simpl py_eq_str.
  destruct (String.eqb s "1") eqn:E1; [reflexivity|].
  unfold replace_code. simpl py_eq_str.
  destruct (String.eqb s "+") eqn:Ep; [reflexivity|].
  unfold replace_r_or_float. simpl py_eq_str.
  destruct (String.eqb s "r") eqn:Er; reflexivity.
Qed.

Lemma bb2percent_value_cells (xs : list pyval) :
  bb2percent_value xs = traverse bb_cell xs.
Proof.
  unfold bb2percent_value, bb_pass6.
  rewrite !traverse_map. apply traverse_ext. intros b. apply seven_passes_cell.
Qed.

(** ** Running the operations on a heap *)

Open Scope list_scope.

Lemma get_list_run (h : heap) (l : loc) (xs : list pyval) :
  h !! l = Some (OList xs) -> get_list l h = (h, Return xs).
Proof. unfold get_list. intros ->. reflexivity. Qed.

Lemma get_frame_run (h : heap) (l : loc) (d : DataFrame) :
  h !! l = Some (OFrame d) -> get_frame l h = (h, Return d).
Proof. unfold get_frame. intros ->. reflexivity. Qed.

Lemma frame_getitem_run (h : heap) (veg : loc) (d : DataFrame) (k : colname) :
  h !! veg = Some (OFrame d) -> frame_getitem veg k h = (h, df_getitem d k).
Proof.
  intros H. unfold frame_getitem, bind. rewrite (get_frame_run _ _ _ H). reflexivity.
Qed.

Lemma frame_setitem_run (h : heap) (veg : loc) (d : DataFrame) (k : colname)
      (c : list pyval) :
  h !! veg = Some (OFrame d) ->
  frame_setitem veg k c h =
    match df_setitem d k c with
    | Return d' => (<[veg := OFrame d']> h, Return tt)
    | Raise e => (h, Raise e)
    end.
Proof.
  intros H. unfold frame_setitem, bind. rewrite (get_frame_run _ _ _ H).
  unfold lift. destruct (df_setitem d k c); reflexivity.
Qed.

Lemma frame_setitem_scalar_run (h : heap) (veg : loc) (d : DataFrame) (k : colname)
      (v : pyval) :
  h !! veg = Some (OFrame d) ->
  frame_setitem_scalar veg k v h = (<[veg := OFrame (df_setitem_scalar d k v)]> h, Return tt).
Proof.
  intros H. unfold frame_setitem_scalar, bind. rewrite (get_frame_run _ _ _ H).
  reflexivity.
Qed.

Lemma frame_setitem_list_run (h : heap) (veg values : loc) (d : DataFrame)
      (k : colname) (c : list pyval) :
  h !! values = Some (OList c) -> h !! veg = Some (OFrame d) ->
  frame_setitem_list veg k values h =
    match df_setitem d k c with
    | Return d' => (<[veg := OFrame d']> h, Return tt)
    | Raise e => (h, Raise e)
    end.
Proof.
  intros Hl H. unfold frame_setitem_list, bind. rewrite (get_list_run _ _ _ Hl).
  apply frame_setitem_run, H.
Qed.

Lemma series_setitem_mask_run (h : heap) (veg : loc) (d : DataFrame) (k : colname)
      (mask : list bool) (v : pyval) :
  h !! veg = Some (OFrame d) ->
  series_setitem_mask veg k mask v h =
    match df_setitem_mask d k mask v with
    | Return d' => (<[veg := OFrame d']> h, Return tt)
    | Raise e => (h, Raise e)
    end.
Proof.
  intros H. unfold series_setitem_mask, bind. rewrite (get_frame_run _ _ _ H).
  unfold lift. destruct (df_setitem_mask d k mask v); reflexivity.
Qed.

Lemma frame_fillna_run (h : heap) (veg : loc) (d : DataFrame)
      (values : list (colname * pyval)) :
  h !! veg = Some (OFrame d) ->
  frame_fillna veg values h = (h ++ [OFrame (fillna values d)], Return (length h)).
Proof.
  intros H. unfold frame_fillna, bind. rewrite (get_frame_run _ _ _ H). reflexivity.
Qed.

Lemma series_tolist_run (h : heap) (veg : loc) (d : DataFrame) (k : colname) :
  h !! veg = Some (OFrame d) ->
  series_tolist veg k h =
    match df_getitem d k with
    | Return c => (h ++ [OList c], Return (length h))
    | Raise e => (h, Raise e)
    end.
Proof.
  intros H. unfold series_tolist, bind. rewrite (frame_getitem_run _ _ _ _ H).
  destruct (df_getitem d k); reflexivity.
Qed.

Lemma lookup_new (h : heap) (o : obj) : (h ++ [o]) !! length h = Some o.
Proof. rewrite lookup_app_r by lia. rewrite Nat.sub_diag. reflexivity. Qed.

Lemma comprehension_run (f : pyval -> outcome pyval) (h : heap) (bb : loc)
      (xs : list pyval) :
  h !! bb = Some (OList xs) ->
  comprehension f bb h =
    match traverse f xs with
    | Return ys => (h ++ [OList ys], Return (length h))
    | Raise e => (h, Raise e)
    end.
Proof.
  intros H. unfold comprehension, bind. rewrite (get_list_run _ _ _ H).
  unfold lift. destruct (traverse f xs); reflexivity.
Qed.

Lemma comprehension_total_run (g : pyval -> pyval) (h : heap) (bb : loc)
      (xs : list pyval) :
  h !! bb = Some (OList xs) ->
  comprehension (fun b => Return (g b)) bb h = (h ++ [OList (map g xs)], Return (length h)).
Proof.
  intros H. rewrite (comprehension_run _ _ _ _ H), traverse_return. reflexivity.
Qed.

(** [bb2percent] on a list with the elements [xs]: the heap grows by the
    lists of the comprehensions, and nothing that was there is written. *)
Lemma bb2percent_run (h : heap) (bb : loc) (xs : list pyval) :
  h !! bb = Some (OList xs) ->
  bb2percent bb h =
    match bb2percent_value xs with
    | Return ys =>
        (h ++ map OList (bb_passes xs) ++ [OList ys], Return (length h + 6)%nat)
    | Raise e => (h ++ map OList (bb_passes xs), Raise e)
    end.
Proof.
  intros H. unfold bb2percent.
  unfold bind at 1. rewrite (comprehension_total_run _ _ _ _ H).
  unfold bind at 1. erewrite comprehension_total_run by apply lookup_new.
  unfold bind at 1. erewrite comprehension_total_run by apply lookup_new.
  unfold bind at 1. erewrite comprehension_total_run by apply lookup_new.
  unfold bind at 1. erewrite comprehension_total_run by apply lookup_new.
  unfold bind at 1. erewrite comprehension_total_run by apply lookup_new.
  unfold bind at 1. erewrite (comprehension_run replace_r_or_float) by apply lookup_new.
  unfold bb2percent_value, bb_pass6, bb_passes.
  destruct (traverse replace_r_or_float _) as [ys|e]; unfold ret; simpl map;
    rewrite <- ?app_assoc; simpl app; repeat f_equal.
  rewrite !length_app. simpl. lia.
Qed.

Lemma bb2percent_not_list (h : heap) (bb : loc) :
  (forall xs, h !! bb <> Some (OList xs)) ->
  bb2percent bb h = (h, Raise TypeError_object).
Proof.
  intros H. unfold bb2percent, bind at 1, comprehension, bind at 1, get_list.
  destruct (h !! bb) as [[xs|d]|] eqn:E; try reflexivity.
  destruct (H xs). reflexivity.
Qed.

(** Whatever the arguments, a call of [bb2percent] only adds to the heap. *)
Lemma bb2percent_extends (h : heap) (bb : loc) :
  exists new, fst (bb2percent bb h) = h ++ new.
Proof.
  destruct (h !! bb) as [[xs|d]|] eqn:E.
  - rewrite (bb2percent_run _ _ _ E).
    destruct (bb2percent_value xs); simpl; eexists; reflexivity.
  - rewrite bb2percent_not_list by (intros xs; congruence).
    exists []. simpl. rewrite app_nil_r. reflexivity.
  - rewrite bb2percent_not_list by (intros xs; congruence).
    exists []. simpl. rewrite app_nil_r. reflexivity.
Qed.

Lemma codeToPercent_cells (codes : list pyval) :
  codeToPercent codes = traverse bb_cell codes.
Proof.
  unfold codeToPercent, bind, alloc. cbn beta iota. simpl app. simpl length.
  rewrite (bb2percent_run [OList codes] 0%nat codes) by reflexivity.
  rewrite bb2percent_value_cells.
  destruct (traverse bb_cell codes) as [ys|e]; [|reflexivity].
  simpl. reflexivity.
Qed.

(** ** Heaps of the form [<[v := o]> H ++ L] *)

Section HeapShape.
Variables (H : heap) (v : loc).
Hypothesis Hv : (v < length H)%nat.

Lemma shape_lookup (o : obj) (L : heap) : (<[v := o]> H ++ L) !! v = Some o.
Proof.
  rewrite lookup_app_l by (rewrite length_insert; exact Hv).
  apply list_lookup_insert_eq, Hv.
Qed.

Lemma shape_lookup_new (o : obj) (L : heap) (i : nat) :
  (<[v := o]> H ++ L) !! (length H + i)%nat = L !! i.
Proof.
  rewrite lookup_app_r by (rewrite length_insert; lia).
  rewrite length_insert. f_equal. lia.
Qed.

Lemma shape_length (o : obj) (L : heap) :
  length (<[v := o]> H ++ L) = (length H + length L)%nat.
Proof. rewrite length_app, length_insert. reflexivity. Qed.

Lemma shape_put (o o' : obj) (L : heap) :
  <[v := o']> (<[v := o]> H ++ L) = <[v := o']> H ++ L.
Proof.
  rewrite insert_app_l by (rewrite length_insert; exact Hv).
  rewrite list_insert_insert_eq. reflexivity.
Qed.

Lemma shape_kept (o : obj) (L : heap) : heap_kept v H (<[v := o]> H ++ L).
Proof.
  intros l x Hl Hx. rewrite lookup_app_l.
  - rewrite list_lookup_insert_ne by congruence. exact Hx.
  - rewrite length_insert. eapply lookup_lt_Some, Hx.
Qed.

End HeapShape.

(** ** [aggregate_cover] after [fillna] *)

Lemma lookup_result (h mid : heap) (o : obj) :
  (h ++ mid ++ [o]) !! (length h + length mid)%nat = Some o.
Proof.
  rewrite app_assoc, <- length_app. apply lookup_new.
Qed.

(** The lines after [fillna] work on the new table at [v]: they add lists to
    the heap and write the table at [v], nothing else. *)
Lemma convert_and_sum_shape (H : heap) (v : loc) (d : DataFrame) (L0 : heap)
      (bb_scale : colname) :
  (v < length H)%nat ->
  exists (X : DataFrame) (L : heap),
    (l <- series_tolist v bb_scale ;;
     bb_values <- bb2percent l ;;
     frame_setitem_list v (Some "bb_scale") bb_values ;;
     p <- frame_getitem v (Some "percent") ;;
     p <- lift (astype_float p) ;;
     frame_setitem v (Some "percent") p ;;
     aggregate_cover_tail v) (<[v := OFrame d]> H ++ L0)
    = (<[v := OFrame X]> H ++ L, omap (fun _ => v) (convert_and_sum d bb_scale))
    /\ (forall r, convert_and_sum d bb_scale = Return r -> X = r).
Proof.
  intros Hv. unfold convert_and_sum.
  unfold bind at 1. rewrite (series_tolist_run _ _ d) by apply shape_lookup, Hv.
  destruct (df_getitem d bb_scale) as [l|e]; simpl obind;
    [|eexists d, _; split; [reflexivity | discriminate]].
  unfold bind at 1. rewrite (bb2percent_run _ _ l) by apply lookup_new.
  destruct (bb2percent_value l) as [ys|e]; simpl obind;
    [|rewrite <- !app_assoc; eexists d, _; split; [reflexivity | discriminate]].
  unfold bind at 1.
  rewrite (frame_setitem_list_run _ _ _ d _ ys);
    [| apply (lookup_result _ (map OList (bb_passes l)))
     | rewrite <- !app_assoc; apply shape_lookup, Hv].
  rewrite <- !app_assoc.
  destruct (df_setitem d (Some "bb_scale") ys) as [d3|e]; simpl obind;
    [|eexists d, _; split; [reflexivity | discriminate]].
  rewrite (shape_put _ _ Hv).
  unfold bind at 1. rewrite (frame_getitem_run _ _ d3) by apply shape_lookup, Hv.
  destruct (df_getitem d3 (Some "percent")) as [p|e]; simpl obind;
    [|eexists d3, _; split; [reflexivity | discriminate]].
  unfold bind at 1, lift at 1.
  destruct (astype_float p) as [p'|e]; simpl obind;
    [|eexists d3, _; split; [reflexivity | discriminate]].
  unfold bind at 1. rewrite (frame_setitem_run _ _ d3) by apply shape_lookup, Hv.
  destruct (df_setitem d3 (Some "percent") p') as [d4|e]; simpl obind;
    [|eexists d3, _; split; [reflexivity | discriminate]].
  rewrite (shape_put _ _ Hv).
  unfold aggregate_cover_tail.
  unfold bind at 1. rewrite (frame_getitem_run _ _ d4) by apply shape_lookup, Hv.
  destruct (df_getitem d4 (Some "bb_scale")) as [b|e]; simpl obind;
    [|eexists d4, _; split; [reflexivity | discriminate]].
  unfold bind at 1. rewrite (frame_getitem_run _ _ d4) by apply shape_lookup, Hv.
  destruct (df_getitem d4 (Some "percent")) as [q|e]; simpl obind;
    [|eexists d4, _; split; [reflexivity | discriminate]].
  unfold bind at 1, lift at 1.
  destruct (series_add b q) as [c|e]; simpl obind;
    [|eexists d4, _; split; [reflexivity | discriminate]].
  unfold bind at 1. rewrite (frame_setitem_run _ _ d4) by apply shape_lookup, Hv.
  destruct (df_setitem d4 (Some "cover") c) as [d5|e];
    [|eexists d4, _; split; [reflexivity | discriminate]].
  rewrite (shape_put _ _ Hv). unfold ret. simpl omap.
  eexists d5, _. split; [reflexivity|]. intros r Hr. congruence.
Qed.

(** [aggregate_cover] on a heap [h] with the caller's table [d] at [veg]:
    the new table is the first object the call adds. *)
Lemma aggregate_cover_run (h : heap) (veg : loc) (d : DataFrame)
      (bb_scale percent : colname) :
  h !! veg = Some (OFrame d) ->
  exists (L : heap),
    aggregate_cover veg bb_scale percent h
    = (<[veg := OFrame (caller_after d bb_scale percent)]> h ++ L,
       omap (fun _ => length h) (aggregate_value d bb_scale percent))
    /\ (forall r, aggregate_value d bb_scale percent = Return r ->
                  L !! 0%nat = Some (OFrame r)).
Proof.
  intros Hd. assert (Hv : (veg < length h)%nat) by (eapply lookup_lt_Some, Hd).
  unfold aggregate_cover, aggregate_value, caller_after.
  set (d0 := percent_default d percent).
  assert (E0 : exists h0, h0 !! veg = Some (OFrame d0) /\ h0 = <[veg := OFrame d0]> h /\
     (match percent with
      | None => frame_setitem_scalar veg percent (PFloat nan)
      | Some _ => ret tt
      end) h = (h0, Return tt)).
  { exists (<[veg := OFrame d0]> h). split; [apply list_lookup_insert_eq, Hv|].
    split; [reflexivity|]. subst d0. destruct percent as [s|]; simpl.
    - unfold ret. rewrite list_insert_id by exact Hd. reflexivity.
    - apply frame_setitem_scalar_run, Hd. }
  destruct E0 as (h0 & Hd0 & Eh0 & Erun).
  unfold bind at 1. rewrite Erun. clear Erun.
  unfold zero_where_percent.
  unfold bind at 1. rewrite (frame_getitem_run _ _ _ _ Hd0).
  destruct (df_getitem d0 bb_scale) as [b|e]; simpl obind;
    [|exists []; rewrite app_nil_r; split; [subst h0; reflexivity | discriminate]].
  unfold bind at 1. rewrite (frame_getitem_run _ _ _ _ Hd0).
  destruct (df_getitem d0 percent) as [pc|e]; simpl obind;
    [|exists []; rewrite app_nil_r; split; [subst h0; reflexivity | discriminate]].
  unfold bind at 1. rewrite (series_setitem_mask_run _ _ _ _ _ _ Hd0).
  destruct (df_setitem_mask d0 bb_scale _ (PInt 0)) as [d1|e]; simpl obind;
    [|exists []; rewrite app_nil_r; split; [subst h0; reflexivity | discriminate]].
  subst h0. rewrite list_insert_insert_eq.
  unfold bind at 1.
  rewrite (frame_fillna_run _ _ d1) by apply list_lookup_insert_eq, Hv.
  rewrite length_insert.
  set (d2 := fillna _ d1).
  set (A := <[veg := OFrame d1]> h).
  assert (HA : length A = length h) by apply length_insert.
  destruct (convert_and_sum_shape (A ++ [OFrame d2]) (length h) d2 [] bb_scale)
    as (X & L & Hrun & HX).
  { rewrite length_app, HA. simpl. lia. }
  rewrite app_nil_r in Hrun.
  rewrite <- HA in Hrun at 2 3.
  rewrite !(insert_app_r_alt A) in Hrun by lia.
  rewrite Nat.sub_diag in Hrun. simpl in Hrun.
  rewrite Hrun, <- app_assoc. exists ([OFrame X] ++ L). split; [reflexivity|].
  intros r Hr. rewrite (HX r Hr). reflexivity.
Qed.

(** ** The value of [aggregate_cover] on the columns [bb_scale] and [percent] *)

Lemma fill_length (v : pyval) (c : list pyval) : length (fill v c) = length c.
Proof. apply length_map. Qed.

Lemma mask_assign_length (mask : list bool) (v : pyval) (c : list pyval) :
  length mask = length c -> length (mask_assign mask v c) = length c.
Proof. intros E. unfold mask_assign. rewrite length_zip_with. lia. Qed.

Lemma df_setitem_ok (d : DataFrame) (k : colname) (c : list pyval) :
  length c = nrows d -> df_setitem d k c = Return (set_column d k c).
Proof. intros E. unfold df_setitem. rewrite E, Nat.eqb_refl. reflexivity. Qed.

(** Writing 0 where the percent is there and filling the nulls with 0 is
    nulling the code there and filling the nulls with 0. *)
Lemma fill_mask_assign (codes percents : list pyval) :
  fill (PInt 0) (mask_assign (map (fun v => negb (isna v)) percents) (PInt 0) codes)
  = Spec.nulls_to_zero (Spec.suppress_codes codes percents).
Proof.
  unfold Spec.nulls_to_zero, Spec.suppress_codes, mask_assign.
  revert codes. induction percents as [|p percents IH]; intros [|c codes];
    simpl; try reflexivity.
  rewrite IH. destruct (isna p); reflexivity.
Qed.

Lemma bb_cell_filled (x : pyval) :
  bb_cell (if isna x then PInt 0 else x)
  = omap PFloat (Spec.codeToPercent1 (if isna x then PInt 0 else x)).
Proof.
  destruct x as [|z|f|s]; try reflexivity.
  - simpl. destruct (is_nan f); reflexivity.
  - cbn [isna]. unfold bb_cell, Spec.codeToPercent1.
    destruct (table_lookup s bb_table); reflexivity.
Qed.

Lemma bb2percent_value_filled (xs : list pyval) :
  bb2percent_value (fill (PInt 0) xs)
  = omap (map PFloat) (traverse Spec.codeToPercent1 (fill (PInt 0) xs)).
Proof.
  rewrite bb2percent_value_cells. unfold fill.
  rewrite !traverse_map, <- traverse_omap.
  apply traverse_ext. intros x. apply bb_cell_filled.
Qed.

Lemma astype_float_cells (c : list pyval) :
  astype_float c = omap (map PFloat) (traverse np_float c).
Proof. apply traverse_omap. Qed.

Lemma series_add_floats (cs ps : list float64) :
  series_add (map PFloat cs) (map PFloat ps) = Return (map PFloat (zip_with add cs ps)).
Proof.
  revert ps. induction cs as [|c cs IH]; intros [|p ps]; simpl; try reflexivity.
  rewrite IH. reflexivity.
Qed.

Lemma fillna_bb_scale (d : DataFrame) :
  columns (fillna [(Some "bb_scale", PInt 0); (Some "percent", PInt 0)] d)
    !! Some "bb_scale"
  = fill (PInt 0) <$> columns d !! Some "bb_scale".
Proof.
  unfold fillna. simpl. rewrite lookup_alter_ne by discriminate.
  apply lookup_alter_eq.
Qed.

Lemma fillna_percent (d : DataFrame) :
  columns (fillna [(Some "bb_scale", PInt 0); (Some "percent", PInt 0)] d)
    !! Some "percent"
  = fill (PInt 0) <$> columns d !! Some "percent".
Proof.
  unfold fillna. simpl. rewrite lookup_alter_eq.
  rewrite lookup_alter_ne by discriminate. reflexivity.
Qed.

Lemma fillna_other (d : DataFrame) (k : colname) :
  k <> Some "bb_scale" -> k <> Some "percent" ->
  columns (fillna [(Some "bb_scale", PInt 0); (Some "percent", PInt 0)] d) !! k
  = columns d !! k.
Proof.
  intros H1 H2. unfold fillna. simpl.
  rewrite !lookup_alter_ne by congruence. reflexivity.
Qed.


Lemma aggregate_value_canonical (d : DataFrame) (codes percents : list pyval) :
  columns d !! Some "bb_scale" = Some codes ->
  columns d !! Some "percent" = Some percents ->
  length codes = nrows d -> length percents = nrows d ->
  (r <~ aggregate_value d (Some "bb_scale") (Some "percent") ;;
   df_getitem r (Some "cover"))
  = Spec.aggregateCover codes percents.
Proof.
  intros Hc Hp Lc Lp.
  unfold aggregate_value, percent_default, zero_where_percent, df_setitem_mask.
  unfold df_getitem at 1 2 3. rewrite Hc, Hp. simpl obind. simpl omap. simpl obind.
  set (c1 := mask_assign _ (PInt 0) codes).
  set (d1 := set_column d (Some "bb_scale") c1).
  set (d2 := fillna _ d1).
  assert (Hc2 : columns d2 !! Some "bb_scale" = Some (fill (PInt 0) c1)).
  { subst d2. rewrite fillna_bb_scale. subst d1. simpl.
    rewrite lookup_insert_eq. reflexivity. }
  assert (Hp2 : columns d2 !! Some "percent" = Some (fill (PInt 0) percents)).
  { subst d2. rewrite fillna_percent. subst d1. simpl.
    rewrite lookup_insert_ne by discriminate. rewrite Hp. reflexivity. }
  assert (Lc1 : length c1 = nrows d).
  { subst c1. rewrite mask_assign_length; [exact Lc|]. rewrite length_map. lia. }
  assert (N2 : nrows d2 = nrows d) by reflexivity.
  clearbody d2. clear d1.
  unfold convert_and_sum. unfold df_getitem at 1. rewrite Hc2. simpl obind.
  rewrite bb2percent_value_filled. subst c1. rewrite fill_mask_assign.
  unfold Spec.aggregateCover.
  set (codes' := Spec.nulls_to_zero (Spec.suppress_codes codes percents)) in *.
  assert (Lc' : length codes' = nrows d).
  { subst codes'. rewrite <- fill_mask_assign, fill_length. exact Lc1. }
  destruct (traverse Spec.codeToPercent1 codes') as [cs|e] eqn:Ecs; simpl; [|reflexivity].
  apply traverse_length in Ecs.
  rewrite df_setitem_ok by (rewrite length_map, Ecs, Lc', N2; reflexivity).
  simpl obind. unfold df_getitem at 1. simpl columns.
  rewrite lookup_insert_ne by discriminate. rewrite Hp2. simpl obind.
  rewrite astype_float_cells. unfold Spec.nulls_to_zero.
  destruct (traverse np_float (fill (PInt 0) percents)) as [ps|e] eqn:Eps; simpl;
    [|reflexivity].
  apply traverse_length in Eps. rewrite fill_length in Eps.
  rewrite df_setitem_ok by (simpl; rewrite length_map, Eps, Lp, N2; reflexivity).
  simpl obind. unfold df_getitem at 1 2. simpl columns.
  rewrite lookup_insert_ne by discriminate. rewrite !lookup_insert_eq. simpl obind.
  rewrite series_add_floats. simpl obind.
  rewrite df_setitem_ok
    by (simpl; rewrite length_map, length_zip_with, Ecs, Eps, Lc', Lp, N2; lia).
  simpl obind. unfold df_getitem. simpl columns. rewrite lookup_insert_eq.
  reflexivity.
Qed.

(** ** The call from two sequences *)

Lemma DataFrame_new_two_run (h : heap) (codes percents : list pyval) :
  DataFrame_new [(Some "bb_scale", codes); (Some "percent", percents)] h =
    if Nat.eqb (length percents) (length codes)
    then (h ++ [OFrame (mkFrame (length codes)
                          (<[Some "bb_scale" := codes]>
                             (<[Some "percent" := percents]> ∅)))],
          Return (length h))
    else (h, Raise ValueError_length).
Proof.
  unfold DataFrame_new. cbn [forallb snd]. rewrite Nat.eqb_refl. simpl andb.
  rewrite andb_true_r. destruct (Nat.eqb (length percents) (length codes)); reflexivity.
Qed.

(** On sequences of one length the call computes what the specification
    describes. *)
Lemma aggregateCover_refines (codes percents : list pyval) :
  length codes = length percents ->
  aggregateCover codes percents = Spec.aggregateCover codes percents.
Proof.
  intros E. unfold aggregateCover.
  unfold bind at 1. rewrite DataFrame_new_two_run.
  rewrite <- E, Nat.eqb_refl. simpl app. simpl length.
  set (d := mkFrame _ _).
  destruct (aggregate_cover_run [OFrame d] 0%nat d (Some "bb_scale") (Some "percent"))
    as (L & Hrun & HL); [reflexivity|].
  unfold bind. rewrite Hrun. clear Hrun.
  rewrite <- (aggregate_value_canonical d codes percents); try reflexivity.
  - destruct (aggregate_value d (Some "bb_scale") (Some "percent")) as [r|e];
      simpl; [|reflexivity].
    rewrite (frame_getitem_run _ _ r); [reflexivity|].
    simpl. apply HL. reflexivity.
  - subst d. simpl. lia.
Qed.


(** ** The described aggregation, record by record *)

Lemma spec_codes_lookup (codes percents : list pyval) (i : nat) (c p : pyval) :
  codes !! i = Some c -> percents !! i = Some p ->
  Spec.nulls_to_zero (Spec.suppress_codes codes percents) !! i
  = Some (let c' := if isna p then c else PNone in if isna c' then PInt 0 else c').
Proof.
  intros Hc Hp. unfold Spec.nulls_to_zero, Spec.suppress_codes, fill.
  rewrite list_lookup_fmap, lookup_zip_with, Hc. simpl. rewrite Hp. reflexivity.
Qed.

Lemma spec_aggregate_lookup (codes percents out : list pyval) (i : nat) (c p : pyval) :
  Spec.aggregateCover codes percents = Return out ->
  codes !! i = Some c -> percents !! i = Some p ->
  exists v, Spec.cover1 c p = Return v /\ out !! i = Some (PFloat v).
Proof.
  unfold Spec.aggregateCover. intros H Hc Hp.
  destruct (traverse Spec.codeToPercent1 _) as [cs|e] eqn:Ecs; simpl in H; [|discriminate].
  destruct (traverse np_float _) as [ps|e] eqn:Eps; simpl in H; [|discriminate].
  inversion H; subst out; clear H.
  destruct (traverse_lookup _ _ _ i _ Ecs (spec_codes_lookup _ _ _ _ _ Hc Hp))
    as (x & Hx & Hxi).
  assert (Hp' : Spec.nulls_to_zero percents !! i = Some (if isna p then PInt 0 else p)).
  { unfold Spec.nulls_to_zero, fill. rewrite list_lookup_fmap, Hp. reflexivity. }
  destruct (traverse_lookup _ _ _ i _ Eps Hp') as (y & Hy & Hyi).
  exists (add x y). split.
  - unfold Spec.cover1. simpl in Hx. rewrite Hx. simpl. rewrite Hy. reflexivity.
  - rewrite list_lookup_fmap, lookup_zip_with, Hxi. simpl. rewrite Hyi. reflexivity.
Qed.

Lemma spec_aggregate_length (codes percents out : list pyval) :
  length codes = length percents ->
  Spec.aggregateCover codes percents = Return out ->
  length out = length codes.
Proof.
  unfold Spec.aggregateCover. intros E H.
  destruct (traverse Spec.codeToPercent1 _) as [cs|e] eqn:Ecs; simpl in H; [|discriminate].
  destruct (traverse np_float _) as [ps|e] eqn:Eps; simpl in H; [|discriminate].
  inversion H; subst out; clear H.
  apply traverse_length in Ecs, Eps.
  unfold Spec.nulls_to_zero, Spec.suppress_codes in *.
  rewrite fill_length in Ecs, Eps. rewrite length_zip_with in Ecs.
  rewrite length_map, length_zip_with. lia.
Qed.

Lemma spec_aggregate_total (codes percents : list pyval) :
  Forall2 (fun c p => exists v, Spec.cover1 c p = Return v) codes percents ->
  exists out, Spec.aggregateCover codes percents = Return out.
Proof.
  intros HF. unfold Spec.aggregateCover.
  assert (Hcs : exists cs, traverse Spec.codeToPercent1
                  (Spec.nulls_to_zero (Spec.suppress_codes codes percents)) = Return cs).
  { apply traverse_total. unfold Spec.nulls_to_zero, Spec.suppress_codes, fill.
    induction HF as [|c p codes percents [v Hv] _ IH]; simpl; constructor; [|exact IH].
    unfold Spec.cover1 in Hv.
    destruct (Spec.codeToPercent1 _) as [x|e]; [eexists; reflexivity | discriminate]. }
  assert (Hps : exists ps, traverse np_float (Spec.nulls_to_zero percents) = Return ps).
  { clear Hcs. apply traverse_total. unfold Spec.nulls_to_zero, fill.
    induction HF as [|c p codes percents [v Hv] _ IH]; simpl; constructor; [|exact IH].
    unfold Spec.cover1 in Hv.
    destruct (Spec.codeToPercent1 _) as [x|e]; simpl in Hv; [|discriminate].
    destruct (np_float _) as [y|e]; [eexists; reflexivity | discriminate]. }
  destruct Hcs as [cs ->]. destruct Hps as [ps ->]. simpl. eexists. reflexivity.
Qed.

(** ** What a call leaves in the caller's table, and a second call *)

Lemma mask_assign_again (mask : list bool) (v : pyval) (c : list pyval) :
  mask_assign mask v (mask_assign mask v c) = mask_assign mask v c.
Proof.
  unfold mask_assign. revert c.
  induction mask as [|m mask IH]; intros [|x c]; simpl; try reflexivity.
  rewrite IH. destruct m; reflexivity.
Qed.

Lemma mask_of_zeroed (p : list pyval) :
  map (fun v => negb (isna v))
      (mask_assign (map (fun v => negb (isna v)) p) (PInt 0) p)
  = map (fun v => negb (isna v)) p.
Proof.
  unfold mask_assign. induction p as [|x p IH]; simpl; [reflexivity|].
  rewrite IH. destruct (isna x) eqn:E; simpl; [rewrite E|]; reflexivity.
Qed.

Lemma mask_assign_lookup (mask : list bool) (v : pyval) (c : list pyval)
      (i : nat) (m : bool) (x : pyval) :
  mask !! i = Some m -> c !! i = Some x ->
  mask_assign mask v c !! i = Some (if m then v else x).
Proof.
  intros Hm Hx. unfold mask_assign. rewrite lookup_zip_with, Hm. simpl.
  rewrite Hx. reflexivity.
Qed.

Lemma set_column_same (d : DataFrame) (k : colname) (c : list pyval) :
  columns d !! k = Some c -> set_column d k c = d.
Proof.
  intros H. destruct d as [n m]. unfold set_column. simpl in *.
  rewrite insert_id by exact H. reflexivity.
Qed.

Lemma set_column_twice (d : DataFrame) (k : colname) (c c' : list pyval) :
  set_column (set_column d k c) k c' = set_column d k c'.
Proof. unfold set_column. simpl. rewrite insert_insert_eq. reflexivity. Qed.

Lemma percent_default_again (d : DataFrame) (percent : colname) :
  percent_default (percent_default d percent) percent = percent_default d percent.
Proof.
  destruct percent as [s|]; [reflexivity|].
  unfold percent_default, df_setitem_scalar. simpl nrows. apply set_column_twice.
Qed.

Lemma mask_assign_nan_column (n : nat) (v : pyval) :
  mask_assign (map (fun v => negb (isna v)) (replicate n (PFloat nan))) v
              (replicate n (PFloat nan))
  = replicate n (PFloat nan).
Proof.
  unfold mask_assign. induction n as [|n IH]; simpl; [reflexivity|].
  rewrite IH. reflexivity.
Qed.

(** After the write of line 143 the table is as line 141 and line 143 leave
    it: both lines change nothing when they run again. *)
Lemma zero_where_percent_again (d d1 : DataFrame) (bb_scale percent : colname) :
  zero_where_percent (percent_default d percent) bb_scale percent = Return d1 ->
  percent_default d1 percent = d1 /\
  zero_where_percent d1 bb_scale percent = Return d1.
Proof.
  set (d0 := percent_default d percent).
  assert (HN : percent = None ->
               columns d0 !! None = Some (replicate (nrows d0) (PFloat nan))).
  { intros ->. subst d0. unfold percent_default, df_setitem_scalar. simpl.
    apply lookup_insert_eq. }
  clearbody d0.
  unfold zero_where_percent, df_setitem_mask, df_getitem.
  destruct (columns d0 !! bb_scale) as [b|] eqn:Hb; simpl; [|discriminate].
  destruct (columns d0 !! percent) as [p|] eqn:Hp; simpl; [|discriminate].
  intros H. inversion H as [Hd1]. clear H Hd1.
  set (mask := map (fun v => negb (isna v)) p) in *.
  destruct (decide (bb_scale = percent)) as [->|Hne].
  - (* one column holds the codes and the percents *)
    assert (b = p) by congruence. subst b.
    split.
    + destruct percent as [s|]; [reflexivity|].
      unfold percent_default, df_setitem_scalar. simpl nrows.
      apply set_column_same. simpl.
      rewrite lookup_insert_eq. f_equal.
      rewrite (HN eq_refl) in Hp. inversion Hp as [Hp']. subst mask.
      rewrite <- Hp'. apply mask_assign_nan_column.
    + simpl. rewrite lookup_insert_eq. simpl.
      subst mask. rewrite mask_of_zeroed, mask_assign_again.
      rewrite set_column_twice. reflexivity.
  - split.
    + destruct percent as [s|]; [reflexivity|].
      unfold percent_default, df_setitem_scalar. simpl nrows.
      apply set_column_same. simpl.
      rewrite lookup_insert_ne by exact Hne. apply (HN eq_refl).
    + simpl. rewrite lookup_insert_eq. simpl.
      rewrite lookup_insert_ne by exact Hne. rewrite Hp. simpl.
      fold mask. rewrite mask_assign_again, set_column_twice. reflexivity.
Qed.

Lemma caller_after_again (d : DataFrame) (bb_scale percent : colname) :
  caller_after (caller_after d bb_scale percent) bb_scale percent
  = caller_after d bb_scale percent
  /\ aggregate_value (caller_after d bb_scale percent) bb_scale percent
     = aggregate_value d bb_scale percent.
Proof.
  unfold caller_after, aggregate_value.
  destruct (zero_where_percent (percent_default d percent) bb_scale percent)
    as [d1|e] eqn:E.
  - destruct (zero_where_percent_again _ _ _ _ E) as [E1 E2].
    rewrite E1, E2. split; reflexivity.
  - rewrite percent_default_again, E. split; reflexivity.
Qed.

(** The cells of the caller's table after the call. *)
Lemma caller_after_cells (d : DataFrame) (bb_scale : colname) (pc : string)
      (b p : list pyval) :
  columns d !! bb_scale = Some b -> columns d !! Some pc = Some p ->
  nrows (caller_after d bb_scale (Some pc)) = nrows d /\
  columns (caller_after d bb_scale (Some pc)) !! bb_scale
    = Some (mask_assign (map (fun v => negb (isna v)) p) (PInt 0) b) /\
  (forall k, k <> bb_scale ->
     columns (caller_after d bb_scale (Some pc)) !! k = columns d !! k).
Proof.
  intros Hb Hp. unfold caller_after, percent_default, zero_where_percent,
    df_setitem_mask, df_getitem.
  rewrite Hb, Hp. simpl. split; [reflexivity|]. split.
  - apply lookup_insert_eq.
  - intros k Hk. apply lookup_insert_ne. congruence.
Qed.

(** ** Lengths in [aggregate_cover] *)

Lemma traverse_raise_inv {A B : Type} (f : A -> outcome B) (xs : list A) (e : pyexn) :
  traverse f xs = Raise e -> exists x, In x xs /\ f x = Raise e.
Proof.
  induction xs as [|x xs IH]; simpl; [discriminate|].
  destruct (f x) as [y|e'] eqn:Hx; simpl.
  - destruct (traverse f xs) as [ys|e'']; simpl; [discriminate|].
    intros H. inversion H; subst. destruct (IH eq_refl) as (x' & Hin & Hx').
    exists x'. split; [right; exact Hin | exact Hx'].
  - intros H. inversion H; subst. exists x. split; [left; reflexivity | exact Hx].
Qed.







Lemma bb2percent_value_length (xs ys : list pyval) :
  bb2percent_value xs = Return ys -> length ys = length xs.
Proof.
  rewrite bb2percent_value_cells. apply traverse_length.
Qed.

Lemma set_column_wf (d : DataFrame) (k : colname) (c : list pyval) :
  frame_wf d -> length c = nrows d -> frame_wf (set_column d k c).
Proof.
  intros W L k' c'. unfold set_column. simpl.
  destruct (decide (k = k')) as [->|Hne].
  - rewrite lookup_insert_eq. intros H. inversion H; subst. exact L.
  - rewrite lookup_insert_ne by exact Hne. apply W.
Qed.







(** A table that [aggregate_cover] returns has the rows of the table it got
    and a column [cover] with a cell for each row. *)
Lemma aggregate_value_cover (d r : DataFrame) (bb_scale percent : colname) :
  aggregate_value d bb_scale percent = Return r ->
  nrows r = nrows d /\
  exists c, columns r !! Some "cover" = Some c /\ length c = nrows d.
Proof.
  unfold aggregate_value.
  destruct (zero_where_percent _ bb_scale percent) as [d1|e] eqn:E; simpl;
    [|discriminate].
  assert (N1 : nrows d1 = nrows d).
  { revert E. unfold zero_where_percent, df_setitem_mask, df_getitem.
    destruct (columns _ !! bb_scale); simpl; [|discriminate].
    destruct (columns _ !! percent); simpl; [|discriminate].
    intros H. inversion H. simpl. destruct percent; reflexivity. }
  set (d2 := fillna _ d1). assert (N2 : nrows d2 = nrows d) by exact N1.
  clearbody d2. unfold convert_and_sum.
  destruct (df_getitem d2 bb_scale) as [l|e]; simpl; [|discriminate].
  destruct (bb2percent_value l) as [ys|e]; simpl; [|discriminate].
  unfold df_setitem at 1.
  destruct (Nat.eqb (length ys) (nrows d2)); simpl; [|discriminate].
  destruct (df_getitem _ (Some "percent")) as [p|e]; simpl; [|discriminate].
  destruct (astype_float p) as [p'|e]; simpl; [|discriminate].
  unfold df_setitem at 1.
  destruct (Nat.eqb (length p') _); simpl; [|discriminate].
  destruct (df_getitem _ (Some "bb_scale")) as [b|e]; simpl; [|discriminate].
  destruct (df_getitem _ (Some "percent")) as [q|e]; simpl; [|discriminate].
  destruct (series_add b q) as [c|e]; simpl; [|discriminate].
  unfold df_setitem.
  destruct (Nat.eqb (length c) _) eqn:L; simpl; [|discriminate].
  intros H. inversion H; subst. simpl. split; [exact N2|].
  exists c. split; [apply lookup_insert_eq|].
  apply Nat.eqb_eq in L. simpl in L. congruence.
Qed.

(** * The properties of the specification *)

(** ** [bb2percent] *)

Lemma bb_cell_reserved (c : string) (v : float64) :
  In (c, v) bb_table -> bb_cell (PStr c) = Return (PFloat v).
Proof.
  unfold bb_table. simpl.
  intros [H|[H|[H|[H|[H|[H|[H|[]]]]]]]]; inversion H; subst; reflexivity.
Qed.

Lemma bb_cell_unreserved (s : string) :
  reserved s = false -> bb_cell (PStr s) = omap PFloat (py_float (PStr s)).
Proof.
  unfold reserved, bb_cell. destruct (table_lookup s bb_table); [discriminate|].
  reflexivity.
Qed.

Lemma codeToPercent_at (pre post out : list pyval) (x : pyval) :
  codeToPercent (pre ++ x :: post) = Return out ->
  exists y, bb_cell x = Return y /\ out !! length pre = Some y.
Proof.
  rewrite codeToPercent_cells. intros H.
  apply (traverse_lookup _ _ _ (length pre) x H), list_lookup_middle. reflexivity.
Qed.

(** C2. Each of the seven codes "5", "4", "3", "2", "1", "+", "r" is mapped to
    the value of the table, 87.5, 62.5, 37.5, 17.5, 6.5, 0.5 and 0.1: alone
    and at any place of a list that [bb2percent] converts. *)
Theorem C2_table_values (c : string) (v : float64) (pre post out : list pyval) :
  In (c, v) [("5", of_decimal false 875 (-1)); ("4", of_decimal false 625 (-1));
             ("3", of_decimal false 375 (-1)); ("2", of_decimal false 175 (-1));
             ("1", of_decimal false 65 (-1)); ("+", of_decimal false 5 (-1));
             ("r", of_decimal false 1 (-1))] ->
  codeToPercent [PStr c] = Return [PFloat v] /\
  (codeToPercent (pre ++ PStr c :: post) = Return out ->
   out !! length pre = Some (PFloat v)).
Proof.
  intros Hin. change (In (c, v) bb_table) in Hin.
  pose proof (bb_cell_reserved c v Hin) as Hc. split.
  - rewrite codeToPercent_cells. cbn [traverse]. rewrite Hc. reflexivity.
  - intros H. destruct (codeToPercent_at _ _ _ _ H) as (y & Hy & Hout).
    congruence.
Qed.

Lemma C2_table_values_witness :
  In ("r", of_decimal false 1 (-1))
     [("5", of_decimal false 875 (-1)); ("4", of_decimal false 625 (-1));
      ("3", of_decimal false 375 (-1)); ("2", of_decimal false 175 (-1));
      ("1", of_decimal false 65 (-1)); ("+", of_decimal false 5 (-1));
      ("r", of_decimal false 1 (-1))] /\
  codeToPercent [PStr "r"] = Return [PFloat (of_decimal false 1 (-1))].
Proof.
  assert (Hin : In ("r", of_decimal false 1 (-1))
     [("5", of_decimal false 875 (-1)); ("4", of_decimal false 625 (-1));
      ("3", of_decimal false 375 (-1)); ("2", of_decimal false 175 (-1));
      ("1", of_decimal false 65 (-1)); ("+", of_decimal false 5 (-1));
      ("r", of_decimal false 1 (-1))]).
  { simpl. do 6 right. left. reflexivity. }
  split; [exact Hin|].
  exact (proj1 (C2_table_values "r" (of_decimal false 1 (-1)) [] [] [] Hin)).
Defined.

(** C3. An ASCII string that is none of the seven codes and that [float]
    reads as a number is mapped to that float, alone and at any place of a
    list; the table goes before the reading as a number: "5" gives 87.5
    although [float("5")] is 5.0.  For "12.5" the result is 12.5. *)
Theorem C3_numeric_strings (s : string) (f : float64) (pre post out : list pyval) :
  is_ascii s = true -> reserved s = false -> float_of_string s = Some f ->
  codeToPercent [PStr s] = Return [PFloat f] /\
  (codeToPercent (pre ++ PStr s :: post) = Return out ->
   out !! length pre = Some (PFloat f)) /\
  (float_of_string "5" = Some f5 /\
   codeToPercent [PStr "5"] = Return [PFloat f87_5] /\ f87_5 <> f5) /\
  (float_of_string "12.5" = Some f12_5 /\
   codeToPercent [PStr "12.5"] = Return [PFloat f12_5]).
Proof.
  intros _ Hr Hf.
  assert (Hc : bb_cell (PStr s) = Return (PFloat f)).
  { rewrite (bb_cell_unreserved s Hr). simpl. rewrite Hf. reflexivity. }
  split; [|split; [|split]].
  - rewrite codeToPercent_cells. cbn [traverse]. rewrite Hc. reflexivity.
  - intros H. destruct (codeToPercent_at _ _ _ _ H) as (y & Hy & Hout).
    congruence.
  - split; [vm_compute; reflexivity|]. split; [vm_compute; reflexivity|].
    discriminate.
  - split; vm_compute; reflexivity.
Qed.

Lemma C3_numeric_strings_witness :
  is_ascii "12.5" = true /\
  reserved "12.5" = false /\ float_of_string "12.5" = Some f12_5 /\
  codeToPercent [PStr "12.5"] = Return [PFloat f12_5].
Proof.
  assert (Ha : is_ascii "12.5" = true) by reflexivity.
  assert (Hr : reserved "12.5" = false) by reflexivity.
  assert (Hf : float_of_string "12.5" = Some f12_5) by (vm_compute; reflexivity).
  split; [exact Ha|]. split; [exact Hr|]. split; [exact Hf|].
  exact (proj1 (C3_numeric_strings "12.5" f12_5 [] [] [] Ha Hr Hf)).
Defined.

(** C4, as the code has it.  A list with an ASCII string that is none of the
    seven codes and that [float] cannot read makes the call raise: no list
    is returned, whatever the other elements are.  When the elements before
    it convert, the exception is the ValueError of [float], which carries
    the string itself and nothing else (no index). *)
Theorem C4_unreadable_code_raises (pre post : list pyval) (s : string) :
  is_ascii s = true -> reserved s = false -> float_of_string s = None ->
  (exists e, codeToPercent (pre ++ PStr s :: post) = Raise e) /\
  (forall ys, codeToPercent pre = Return ys ->
     codeToPercent (pre ++ PStr s :: post) = Raise (ValueError_float s)) /\
  class_of (ValueError_float s) = ValueError.
Proof.
  intros _ Hr Hf.
  assert (Hc : bb_cell (PStr s) = Raise (ValueError_float s)).
  { rewrite (bb_cell_unreserved s Hr). simpl. rewrite Hf. reflexivity. }
  split; [|split; [|reflexivity]].
  - rewrite codeToPercent_cells. apply (traverse_fails _ _ _ _ _ Hc).
  - intros ys. rewrite !codeToPercent_cells. intros Hpre.
    apply (traverse_raise _ _ _ _ _ _ Hpre Hc).
Qed.

Lemma C4_unreadable_code_raises_witness :
  is_ascii "abc" = true /\
  reserved "abc" = false /\ float_of_string "abc" = None /\
  codeToPercent [PStr "5"; PStr "abc"; PStr "2"] = Raise (ValueError_float "abc").
Proof.
  assert (Ha : is_ascii "abc" = true) by reflexivity.
  assert (Hr : reserved "abc" = false) by reflexivity.
  assert (Hf : float_of_string "abc" = None) by reflexivity.
  split; [exact Ha|]. split; [exact Hr|]. split; [exact Hf|].
  exact (proj1 (proj2 (C4_unreadable_code_raises [PStr "5"] [PStr "2"] "abc" Ha Hr Hf))
           [PFloat f87_5] eq_refl).
Defined.

(** C4, as the specification states it, fails: the exception does not name the index of
    the offending element.  The same string raises the same exception at
    index 0 and at index 1, so no index can be read off the exception. *)
Lemma C4_counterexample :
  ~ exists index_of : pyexn -> nat,
      forall (pre post : list pyval) (s : string) (e : pyexn),
        is_ascii s = true -> reserved s = false -> float_of_string s = None ->
        (exists ys, codeToPercent pre = Return ys) ->
        codeToPercent (pre ++ PStr s :: post) = Raise e ->
        index_of e = length pre.
Proof.
  intros [index_of H].
  assert (H0 : index_of (ValueError_float "abc") = 0%nat).
  { apply (H [] [] "abc"); try reflexivity. exists []. reflexivity. }
  assert (H1 : index_of (ValueError_float "abc") = 1%nat).
  { apply (H [PStr "5"] [] "abc"); try reflexivity.
    exists [PFloat f87_5]. reflexivity. }
  congruence.
Qed.

(** C9. The conversion looks at the type of an element: a number is not
    looked up in the table but handed to [float].  The integer 5 and the
    float 5.0 give 5.0, where the string "5" gives 87.5; at any place of a
    list that [bb2percent] converts, a float stays what it is and an integer
    becomes the float of its value. *)
Theorem C9_numbers_are_not_codes :
  (forall f, codeToPercent [PFloat f] = Return [PFloat f]) /\
  (forall z, codeToPercent [PInt z] = omap (fun f => [PFloat f]) (float_of_int z)) /\
  (forall pre post out f,
      codeToPercent (pre ++ PFloat f :: post) = Return out ->
      out !! length pre = Some (PFloat f)) /\
  (forall pre post out z,
      codeToPercent (pre ++ PInt z :: post) = Return out ->
      out !! length pre = Some (PFloat (of_Z z))) /\
  codeToPercent [PInt 5] = Return [PFloat f5] /\
  codeToPercent [PFloat f5] = Return [PFloat f5] /\
  codeToPercent [PStr "5"] = Return [PFloat f87_5] /\
  f5 <> f87_5.
Proof.
  split; [|split; [|split; [|split; [|split; [|split; [|split]]]]]].
  - intros f. rewrite codeToPercent_cells. reflexivity.
  - intros z. rewrite codeToPercent_cells. simpl.
    destruct (float_of_int z); reflexivity.
  - intros pre post out f H.
    destruct (codeToPercent_at _ _ _ _ H) as (y & Hy & Hout).
    simpl in Hy. congruence.
  - intros pre post out z H.
    destruct (codeToPercent_at _ _ _ _ H) as (y & Hy & Hout).
    simpl in Hy. unfold float_of_int in Hy.
    destruct (is_inf (of_Z z)); simpl in Hy; [discriminate|]. congruence.
  - vm_compute. reflexivity.
  - vm_compute. reflexivity.
  - vm_compute. reflexivity.
  - discriminate.
Qed.

(** C10. [bb2percent] never writes the list it is given: every object of the
    heap, the list of the caller among them, is after the call what it was
    before, also when the call raises on an element that [float] rejects. *)
Theorem C10_bb2percent_keeps_its_argument (h : heap) (bb l : loc) (o : obj) :
  h !! l = Some o ->
  fst (bb2percent bb h) !! l = Some o.
Proof.
  intros H. destruct (bb2percent_extends h bb) as [new ->].
  apply lookup_app_l_Some, H.
Qed.

Lemma C10_bb2percent_keeps_its_argument_witness :
  [OList [PStr "5"; PStr "abc"]] !! 0%nat = Some (OList [PStr "5"; PStr "abc"]) /\
  snd (bb2percent 0%nat [OList [PStr "5"; PStr "abc"]]) = Raise (ValueError_float "abc") /\
  fst (bb2percent 0%nat [OList [PStr "5"; PStr "abc"]]) !! 0%nat
  = Some (OList [PStr "5"; PStr "abc"]).
Proof.
  split; [reflexivity|]. split; [vm_compute; reflexivity|].
  exact (C10_bb2percent_keeps_its_argument
           [OList [PStr "5"; PStr "abc"]] 0%nat 0%nat
           (OList [PStr "5"; PStr "abc"]) eq_refl).
Defined.

(** ** [aggregate_cover] *)

(** C1. For two sequences of one length [aggregateCover] returns what the
    specification describes: the code is made null where the percent is
    there, the nulls that remain in both sequences become 0, and the result
    holds, record by record, the converted code plus the percent.  In
    particular aggregateCover(["5", null], [null, 20.0]) = [87.5, 20.0].
    The same holds for [aggregate_cover] on any table that holds the two
    sequences in its columns [bb_scale] and [percent], on any heap. *)
Theorem C1_aggregateCover_sum (codes percents out : list pyval) (i : nat)
        (c p : pyval) :
  length codes = length percents ->
  aggregateCover codes percents = Spec.aggregateCover codes percents /\
  (aggregateCover codes percents = Return out ->
   codes !! i = Some c -> percents !! i = Some p ->
   exists v, Spec.cover1 c p = Return v /\ out !! i = Some (PFloat v)) /\
  aggregateCover [PStr "5"; PNone] [PNone; PFloat f20]
  = Return [PFloat f87_5; PFloat f20] /\
  (forall (h : heap) (veg : loc) (d : DataFrame),
      h !! veg = Some (OFrame d) ->
      columns d !! Some "bb_scale" = Some codes ->
      columns d !! Some "percent" = Some percents ->
      length codes = nrows d ->
      match snd (aggregate_cover veg (Some "bb_scale") (Some "percent") h) with
      | Return t =>
          exists r,
            fst (aggregate_cover veg (Some "bb_scale") (Some "percent") h) !! t
            = Some (OFrame r) /\
            df_getitem r (Some "cover") = Spec.aggregateCover codes percents
      | Raise e => Spec.aggregateCover codes percents = Raise e
      end).
Proof.
  intros E. split; [|split; [|split]].
  - apply aggregateCover_refines, E.
  - rewrite (aggregateCover_refines _ _ E). apply spec_aggregate_lookup.
  - rewrite aggregateCover_refines by reflexivity. vm_compute. reflexivity.
  - intros h veg d Hd Hc Hp Lc.
    assert (Hv : (veg < length h)%nat) by (eapply lookup_lt_Some, Hd).
    destruct (aggregate_cover_run h veg d (Some "bb_scale") (Some "percent") Hd)
      as (L & R & HL).
    rewrite R. simpl fst. simpl snd.
    rewrite <- (aggregate_value_canonical d codes percents Hc Hp Lc)
      by (rewrite <- E; exact Lc).
    destruct (aggregate_value d (Some "bb_scale") (Some "percent")) as [r|e];
      simpl; [|reflexivity].
    exists r. split; [|reflexivity].
    rewrite <- (Nat.add_0_r (length h)).
    rewrite shape_lookup_new by exact Hv. apply HL. reflexivity.
Qed.

Lemma C1_aggregateCover_sum_witness :
  length [PStr "3"; PStr "2"] = length [PNone; PNone] /\
  aggregateCover [PStr "3"; PStr "2"] [PNone; PNone]
  = Spec.aggregateCover [PStr "3"; PStr "2"] [PNone; PNone] /\
  Spec.aggregateCover [PStr "3"; PStr "2"] [PNone; PNone]
  = Return [PFloat f37_5; PFloat f17_5].
Proof.
  split; [reflexivity|]. split.
  - exact (proj1 (C1_aggregateCover_sum [PStr "3"; PStr "2"] [PNone; PNone]
                    [] 0%nat PNone PNone eq_refl)).
  - vm_compute. reflexivity.
Defined.

(** C5, as the code has it.  The call writes the table of its caller: where
    the percent of a row is there, the code of the row is overwritten by 0
    (and a call without [percent] first adds a column of NaN under the label
    None); every other object of the heap and every other column stay what
    they were.  A second call on the same table finds nothing more to
    change, and ends as the first: with the same exception, or with a new
    table equal to the first one. *)
Theorem C5_caller_table_after_call (h : heap) (veg : loc) (d : DataFrame)
        (bb_scale percent : colname) :
  h !! veg = Some (OFrame d) ->
  let run1 := aggregate_cover veg bb_scale percent h in
  let run2 := aggregate_cover veg bb_scale percent (fst run1) in
  fst run1 !! veg = Some (OFrame (caller_after d bb_scale percent)) /\
  heap_kept veg h (fst run1) /\
  (forall pc b p, percent = Some pc ->
     columns d !! bb_scale = Some b -> columns d !! Some pc = Some p ->
     nrows (caller_after d bb_scale percent) = nrows d /\
     (exists b', columns (caller_after d bb_scale percent) !! bb_scale = Some b' /\
        forall i c x, b !! i = Some c -> p !! i = Some x ->
                      b' !! i = Some (if isna x then c else PInt 0)) /\
     (forall k, k <> bb_scale ->
        columns (caller_after d bb_scale percent) !! k = columns d !! k)) /\
  fst run2 !! veg = Some (OFrame (caller_after d bb_scale percent)) /\
  match snd run1, snd run2 with
  | Return o1, Return o2 =>
      exists r, fst run1 !! o1 = Some (OFrame r) /\ fst run2 !! o2 = Some (OFrame r)
  | Raise e1, Raise e2 => e1 = e2
  | _, _ => False
  end.
Proof.
  intros Hd. cbv zeta.
  assert (Hv : (veg < length h)%nat) by (eapply lookup_lt_Some, Hd).
  destruct (aggregate_cover_run h veg d bb_scale percent Hd) as (L1 & R1 & HL1).
  rewrite R1. simpl fst. simpl snd.
  set (d' := caller_after d bb_scale percent) in *.
  set (h1 := <[veg := OFrame d']> h ++ L1) in *.
  assert (Hd' : h1 !! veg = Some (OFrame d')) by apply shape_lookup, Hv.
  destruct (aggregate_cover_run h1 veg d' bb_scale percent Hd') as (L2 & R2 & HL2).
  subst d'. destruct (caller_after_again d bb_scale percent) as [A1 A2].
  rewrite A1, A2 in R2. rewrite A2 in HL2. rewrite R2. simpl fst. simpl snd.
  split; [exact Hd'|]. split; [apply shape_kept|]. split; [|split].
  - intros pc b p -> Hb Hp.
    destruct (caller_after_cells _ _ _ _ _ Hb Hp) as (N & C & K).
    split; [exact N|]. split; [|exact K].
    eexists. split; [exact C|]. intros i c x Hc Hx.
    rewrite (mask_assign_lookup _ _ _ i (negb (isna x)) c);
      [destruct (isna x); reflexivity | | exact Hc].
    rewrite list_lookup_fmap, Hx. reflexivity.
  - apply shape_lookup. subst h1. rewrite shape_length. lia.
  - destruct (aggregate_value d bb_scale percent) as [r|e]; simpl; [|reflexivity].
    exists r. split.
    + subst h1. rewrite <- (Nat.add_0_r (length h)).
      rewrite shape_lookup_new by exact Hv. apply HL1. reflexivity.
    + rewrite <- (Nat.add_0_r (length h1)).
      rewrite shape_lookup_new by (subst h1; rewrite shape_length; lia).
      apply HL2. reflexivity.
Qed.

Lemma C5_caller_table_after_call_witness :
  let d := mkFrame 2 (<[Some "bb_scale" := [PStr "5"; PStr "3"]]>
                        (<[Some "percent" := [PFloat f20; PNone]]> ∅)) in
  [OFrame d] !! 0%nat = Some (OFrame d) /\
  fst (aggregate_cover 0%nat (Some "bb_scale") (Some "percent") [OFrame d]) !! 0%nat
  = Some (OFrame (caller_after d (Some "bb_scale") (Some "percent"))) /\
  columns (caller_after d (Some "bb_scale") (Some "percent")) !! Some "bb_scale"
  = Some [PInt 0; PStr "3"].
Proof.
  cbv zeta. split; [reflexivity|]. split.
  - exact (proj1 (C5_caller_table_after_call
                    [OFrame (mkFrame 2 (<[Some "bb_scale" := [PStr "5"; PStr "3"]]>
                        (<[Some "percent" := [PFloat f20; PNone]]> ∅)))]
                    0%nat _ (Some "bb_scale") (Some "percent") eq_refl)).
  - vm_compute. reflexivity.
Defined.

(** C5, as the specification states it, fails: the table of the caller is not what it
    was.  With the codes ["5"] and the percents [20.0], the code column of
    the caller's table holds 0 after the call. *)
Lemma C5_counterexample :
  ~ (forall (h : heap) (veg : loc) (d : DataFrame) (bb_scale percent : colname),
       h !! veg = Some (OFrame d) ->
       fst (aggregate_cover veg bb_scale percent h) !! veg = Some (OFrame d)).
Proof.
  intros H.
  specialize (H [OFrame (mkFrame 1 (<[Some "bb_scale" := [PStr "5"]]>
                                      (<[Some "percent" := [PFloat f20]]> ∅)))]
                0%nat _ (Some "bb_scale") (Some "percent") eq_refl).
  apply (f_equal (fun o => match o with
                           | Some (OFrame d) => columns d !! Some "bb_scale"
                           | _ => None
                           end)) in H.
  vm_compute in H. discriminate.
Qed.



(** C7.  The nulls become 0 only in columns that bear the literal labels
    [bb_scale] and [percent]; the dict of [fillna] names these, not the
    parameters.  A call without [percent] adds its column of NaN under the
    label None, where no 0 is filled in, and ends in the KeyError of
    [veg['percent']]; a null code in a column named [bb] stays null and
    [float] raises on it.  Under the literal labels two nulls give 0. *)
Theorem C7_nulls_filled_under_literal_labels_only :
  (forall d k, k <> Some "bb_scale" -> k <> Some "percent" ->
     columns (fillna [(Some "bb_scale", PInt 0); (Some "percent", PInt 0)] d) !! k
     = columns d !! k) /\
  snd (aggregate_cover 0%nat (Some "bb_scale") None
         [OFrame (mkFrame 1 (<[Some "bb_scale" := [PStr "5"]]> ∅))])
  = Raise (KeyError_column (Some "percent")) /\
  snd (aggregate_cover 0%nat (Some "bb") (Some "percent")
         [OFrame (mkFrame 1 (<[Some "bb" := [PNone]]>
                               (<[Some "percent" := [PFloat nan]]> ∅)))])
  = Raise TypeError_float /\
  aggregateCover [PNone] [PNone] = Return [PFloat zero].
Proof.
  split; [|split; [|split]].
  - intros d k H1 H2. apply fillna_other; assumption.
  - vm_compute. reflexivity.
  - vm_compute. reflexivity.
  - vm_compute. reflexivity.
Qed.

(** C8. For two sequences of one length, a result of [aggregateCover] has
    their length and their order: its i-th element is the cover of the i-th
    code and the i-th percent.  There is a result whenever each record has a
    cover, and for the empty sequences it is the empty sequence. *)
Theorem C8_same_length_same_order (codes percents : list pyval) :
  length codes = length percents ->
  (forall out, aggregateCover codes percents = Return out ->
     length out = length codes /\
     forall i c p, codes !! i = Some c -> percents !! i = Some p ->
       exists v, Spec.cover1 c p = Return v /\ out !! i = Some (PFloat v)) /\
  (Forall2 (fun c p => exists v, Spec.cover1 c p = Return v) codes percents ->
   exists out, aggregateCover codes percents = Return out) /\
  aggregateCover [] [] = Return [].
Proof.
  intros E. rewrite (aggregateCover_refines _ _ E). split; [|split].
  - intros out H. split; [apply (spec_aggregate_length _ _ _ E H)|].
    intros i c p. apply (spec_aggregate_lookup _ _ _ _ _ _ H).
  - apply spec_aggregate_total.
  - vm_compute. reflexivity.
Qed.

Lemma C8_same_length_same_order_witness :
  length [PStr "5"; PNone; PStr "12.5"] = length [PNone; PFloat f20; PNone] /\
  exists out,
    aggregateCover [PStr "5"; PNone; PStr "12.5"] [PNone; PFloat f20; PNone] = Return out /\
    length out = length [PStr "5"; PNone; PStr "12.5"].
Proof.
  split; [reflexivity|].
  exists [PFloat f87_5; PFloat f20; PFloat f12_5].
  assert (R : aggregateCover [PStr "5"; PNone; PStr "12.5"] [PNone; PFloat f20; PNone]
              = Return [PFloat f87_5; PFloat f20; PFloat f12_5])
    by (vm_compute; reflexivity).
  split; [exact R|].
  exact (proj1 (proj1 (C8_same_length_same_order
                         [PStr "5"; PNone; PStr "12.5"] [PNone; PFloat f20; PNone]
                         eq_refl) _ R)).
Defined.

(** * Further properties of the code *)

(** ** [bb2percent]: what it returns and when it raises *)

Lemma bb_cell_converts (b : pyval) :
  converts b = true -> exists f, bb_cell b = Return (PFloat f).
Proof.
  destruct b as [|z|f|s]; unfold converts, reserved, bb_cell, py_float; intros H.
  - discriminate.
  - unfold float_of_int. destruct (is_inf (of_Z z)); [discriminate|].
    eexists. reflexivity.
  - eexists. reflexivity.
  - destruct (table_lookup s bb_table) as [v|].
    + eexists. reflexivity.
    + destruct (float_of_string s); [|discriminate].
      eexists. reflexivity.
Qed.

Lemma bb_cell_not_converts (b : pyval) :
  converts b = false ->
  bb_cell b = Raise (match b with
                     | PInt _ => OverflowError_int
                     | PStr s => ValueError_float s
                     | _ => TypeError_float
                     end).
Proof.
  destruct b as [|z|f|s]; unfold converts, reserved, bb_cell, py_float; intros H.
  - reflexivity.
  - unfold float_of_int. destruct (is_inf (of_Z z)); [reflexivity|discriminate].
  - discriminate.
  - destruct (table_lookup s bb_table) as [v|].
    + discriminate.
    + destruct (float_of_string s); [discriminate|reflexivity].
Qed.

Lemma bb_cell_float (b y : pyval) :
  bb_cell b = Return y -> exists f, y = PFloat f.
Proof.
  destruct (converts b) eqn:C.
  - destruct (bb_cell_converts b C) as [f Hf]. rewrite Hf.
    intros H. inversion H. exists f. reflexivity.
  - rewrite (bb_cell_not_converts b C). discriminate.
Qed.

Lemma traverse_bb_cell_floats (xs ys : list pyval) :
  traverse bb_cell xs = Return ys ->
  Forall (fun y => exists f, y = PFloat f) ys.
Proof.
  revert ys. induction xs as [|x xs IH]; simpl; intros ys H.
  - inversion H. constructor.
  - destruct (bb_cell x) as [y|e] eqn:Hx; simpl in H; [|discriminate].
    destruct (traverse bb_cell xs) as [ys'|e] eqn:Hxs; simpl in H; [|discriminate].
    inversion H; subst. constructor; [apply (bb_cell_float x y Hx)|].
    apply IH. reflexivity.
Qed.

Lemma traverse_bb_cell_fixed (ys : list pyval) :
  Forall (fun y => exists f, y = PFloat f) ys -> traverse bb_cell ys = Return ys.
Proof.
  induction 1 as [|y ys [f ->] _ IH]; simpl; [reflexivity|].
  rewrite IH. reflexivity.
Qed.

(** X1. The list [bb2percent] returns is a new object: it is not the list
    of the caller and it was not on the heap before.  It has the length of
    the list of the caller, and every element of it is a float. *)
Theorem bb2percent_returns_new_list_of_floats (h : heap) (bb out : loc)
        (xs : list pyval) :
  h !! bb = Some (OList xs) ->
  snd (bb2percent bb h) = Return out ->
  out <> bb /\ h !! out = None /\
  exists ys, fst (bb2percent bb h) !! out = Some (OList ys) /\
             length ys = length xs /\
             Forall (fun y => exists f, y = PFloat f) ys.
Proof.
  intros Hbb. rewrite (bb2percent_run h bb xs Hbb).
  destruct (bb2percent_value xs) as [ys|e] eqn:V; cbn [fst snd]; [|discriminate].
  intros H. inversion H; subst out.
  assert (Hlt : (bb < length h)%nat) by (eapply lookup_lt_Some, Hbb).
  split; [lia|]. split; [apply lookup_ge_None; lia|].
  exists ys. split; [|split].
  - change 6%nat with (length (map OList (bb_passes xs))). apply lookup_result.
  - apply (bb2percent_value_length _ _ V).
  - rewrite bb2percent_value_cells in V. apply (traverse_bb_cell_floats _ _ V).
Qed.

Lemma bb2percent_returns_new_list_of_floats_witness :
  [OList [PStr "5"; PInt 5; PStr "1e1"]] !! 0%nat
  = Some (OList [PStr "5"; PInt 5; PStr "1e1"]) /\
  snd (bb2percent 0%nat [OList [PStr "5"; PInt 5; PStr "1e1"]]) = Return 7%nat /\
  fst (bb2percent 0%nat [OList [PStr "5"; PInt 5; PStr "1e1"]]) !! 7%nat
  = Some (OList [PFloat f87_5; PFloat f5; PFloat f10]) /\
  7%nat <> 0%nat.
Proof.
  split; [reflexivity|]. split; [vm_compute; reflexivity|].
  split; [vm_compute; reflexivity|].
  exact (proj1 (bb2percent_returns_new_list_of_floats
                  [OList [PStr "5"; PInt 5; PStr "1e1"]] 0%nat 7%nat
                  [PStr "5"; PInt 5; PStr "1e1"] eq_refl eq_refl)).
Defined.

(** X2. Converting twice is converting once: [bb2percent] on a list that
    [bb2percent] returned gives a list with the same elements, so a
    percentage that happens to be written like a code is not converted a
    second time. *)
Theorem bb2percent_on_its_result (xs ys : list pyval) :
  codeToPercent xs = Return ys -> codeToPercent ys = Return ys.
Proof.
  rewrite !codeToPercent_cells. intros H.
  apply traverse_bb_cell_fixed, (traverse_bb_cell_floats _ _ H).
Qed.

Lemma bb2percent_on_its_result_witness :
  codeToPercent [PStr "5"; PStr "5.0"; PInt 5] = Return [PFloat f87_5; PFloat f5; PFloat f5] /\
  codeToPercent [PFloat f87_5; PFloat f5; PFloat f5]
  = Return [PFloat f87_5; PFloat f5; PFloat f5].
Proof.
  assert (R : codeToPercent [PStr "5"; PStr "5.0"; PInt 5]
              = Return [PFloat f87_5; PFloat f5; PFloat f5])
    by (vm_compute; reflexivity).
  split; [exact R|].
  exact (bb2percent_on_its_result _ _ R).
Defined.

(** X3. On a list whose strings are ASCII, [bb2percent] returns a list
    exactly when every element is a float, an integer in the range of the
    floats, one of the seven codes or a string that [float] reads.
    Otherwise it raises what [float] raises on the first element that is
    none of these: TypeError for None, OverflowError for an integer,
    ValueError for a string. *)
Theorem bb2percent_returns_iff_all_convert (xs : list pyval) :
  forallb ascii_cell xs = true ->
  ((exists ys, codeToPercent xs = Return ys) <-> forallb converts xs = true) /\
  (forall pre x post, xs = pre ++ x :: post ->
     forallb converts pre = true -> converts x = false ->
     codeToPercent xs = Raise (match x with
                               | PInt _ => OverflowError_int
                               | PStr s => ValueError_float s
                               | _ => TypeError_float
                               end)).
Proof.
  intros _. rewrite codeToPercent_cells. split; [split|].
  - intros [ys H]. apply forallb_forall. intros x Hin.
    destruct (converts x) eqn:C; [reflexivity|].
    apply list_elem_of_In, list_elem_of_split in Hin. destruct Hin as (pre & post & ->).
    destruct (traverse_fails bb_cell pre x post _ (bb_cell_not_converts x C)) as [e' He'].
    congruence.
  - intros H. apply traverse_total, Forall_forall. intros x Hin.
    apply list_elem_of_In in Hin.
    rewrite forallb_forall in H. destruct (bb_cell_converts x (H x Hin)) as [f Hf].
    eexists. exact Hf.
  - intros pre x post -> Hpre Hx.
    assert (P : exists ys, traverse bb_cell pre = Return ys).
    { apply traverse_total, Forall_forall. intros y Hin. apply list_elem_of_In in Hin.
      rewrite forallb_forall in Hpre.
      destruct (bb_cell_converts y (Hpre y Hin)) as [f Hf]. eexists. exact Hf. }
    destruct P as [ys Hys].
    apply (traverse_raise _ _ _ _ _ _ Hys (bb_cell_not_converts x Hx)).
Qed.

Lemma bb2percent_returns_iff_all_convert_witness :
  forallb ascii_cell [PStr "5"; PStr "1e1"; PNone; PStr "abc"] = true /\
  codeToPercent [PStr "5"; PStr "1e1"; PNone; PStr "abc"] = Raise TypeError_float /\
  forallb ascii_cell [PStr "5"; PStr " 12.5 "; PInt 3] = true /\
  exists ys, codeToPercent [PStr "5"; PStr " 12.5 "; PInt 3] = Return ys.
Proof.
  split; [reflexivity|]. split.
  - exact (proj2 (bb2percent_returns_iff_all_convert
                    [PStr "5"; PStr "1e1"; PNone; PStr "abc"] eq_refl)
                 [PStr "5"; PStr "1e1"] PNone [PStr "abc"] eq_refl eq_refl eq_refl).
  - split; [reflexivity|].
    apply (proj1 (bb2percent_returns_iff_all_convert
                    [PStr "5"; PStr " 12.5 "; PInt 3] eq_refl)).
    vm_compute. reflexivity.
Defined.

(** ** [aggregate_cover]: the columns it needs and the codes it ignores *)

Lemma bind_run {A B : Type} (c : M A) (k : A -> M B) (h : heap) :
  bind c k h = match c h with
               | (h', Return a) => k a h'
               | (h', Raise e) => (h', Raise e)
               end.
Proof. reflexivity. Qed.

(** Lines 141 to 143 on a heap: the assignments to the table of the caller. *)
Lemma aggregate_cover_first_lines (h : heap) (veg : loc) (d : DataFrame)
      (bb_scale percent : colname) :
  h !! veg = Some (OFrame d) ->
  (veg < length h)%nat /\
  aggregate_cover veg bb_scale percent h
  = match zero_where_percent (percent_default d percent) bb_scale percent with
    | Return d1 =>
        (veg <- frame_fillna veg [(Some "bb_scale", PInt 0); (Some "percent", PInt 0)] ;;
         l <- series_tolist veg bb_scale ;;
         bb_values <- bb2percent l ;;
         frame_setitem_list veg (Some "bb_scale") bb_values ;;
         p <- frame_getitem veg (Some "percent") ;;
         p <- lift (astype_float p) ;;
         frame_setitem veg (Some "percent") p ;;
         aggregate_cover_tail veg) (<[veg := OFrame d1]> h)
    | Raise e => (<[veg := OFrame (percent_default d percent)]> h, Raise e)
    end.
Proof.
  intros Hd.
  assert (Hv : (veg < length h)%nat) by (eapply lookup_lt_Some, Hd).
  split; [exact Hv|].
  set (d0 := percent_default d percent).
  assert (S0 : (match percent with
                | None => frame_setitem_scalar veg percent (PFloat nan)
                | Some _ => ret tt
                end) h = (<[veg := OFrame d0]> h, Return tt)).
  { subst d0. destruct percent as [pc|]; simpl.
    - unfold ret. rewrite list_insert_id by exact Hd. reflexivity.
    - apply (frame_setitem_scalar_run _ _ _ _ _ Hd). }
  assert (Hd0 : <[veg := OFrame d0]> h !! veg = Some (OFrame d0))
    by (apply list_lookup_insert_eq; exact Hv).
  unfold aggregate_cover. rewrite bind_run, S0.
  rewrite bind_run, (frame_getitem_run _ _ _ _ Hd0).
  unfold zero_where_percent.
  destruct (df_getitem d0 bb_scale) as [b|e]; cbn [obind]; [|reflexivity].
  rewrite bind_run, (frame_getitem_run _ _ _ _ Hd0).
  destruct (df_getitem d0 percent) as [p|e]; cbn [obind]; [|reflexivity].
  rewrite bind_run, (series_setitem_mask_run _ _ _ _ _ _ Hd0).
  destruct (df_setitem_mask d0 bb_scale _ (PInt 0)) as [d1|e]; [|reflexivity].
  rewrite list_insert_insert_eq. reflexivity.
Qed.

(** X4. A call that names a column the table lacks raises the KeyError of
    that label.  When [percent] is given, nothing has been written by then:
    the heap is what it was.  When [percent] is left out, the failed call has
    already added the column of NaN under the label None to the table of the
    caller. *)
Theorem aggregate_cover_missing_column (h : heap) (veg : loc) (d : DataFrame)
        (bb_scale : colname) :
  h !! veg = Some (OFrame d) ->
  (forall pc, columns d !! bb_scale = None ->
     aggregate_cover veg bb_scale (Some pc) h = (h, Raise (KeyError_column bb_scale))) /\
  (forall pc, columns d !! bb_scale <> None -> columns d !! Some pc = None ->
     aggregate_cover veg bb_scale (Some pc) h = (h, Raise (KeyError_column (Some pc)))) /\
  (bb_scale <> None -> columns d !! bb_scale = None ->
     aggregate_cover veg bb_scale None h
     = (<[veg := OFrame (set_column d None (replicate (nrows d) (PFloat nan)))]> h,
        Raise (KeyError_column bb_scale))).
Proof.
  intros Hd. split; [|split].
  - intros pc Hb.
    rewrite (proj2 (aggregate_cover_first_lines h veg d bb_scale (Some pc) Hd)).
    unfold zero_where_percent, percent_default, df_getitem. rewrite Hb. cbn [obind].
    rewrite list_insert_id by exact Hd. reflexivity.
  - intros pc Hb Hp.
    rewrite (proj2 (aggregate_cover_first_lines h veg d bb_scale (Some pc) Hd)).
    unfold zero_where_percent, percent_default, df_getitem.
    destruct (columns d !! bb_scale); [|congruence]. rewrite Hp. cbn [obind].
    rewrite list_insert_id by exact Hd. reflexivity.
  - intros Hne Hb.
    rewrite (proj2 (aggregate_cover_first_lines h veg d bb_scale None Hd)).
    unfold zero_where_percent, percent_default, df_getitem, df_setitem_scalar, set_column.
    cbn [columns]. rewrite lookup_insert_ne by congruence. rewrite Hb. reflexivity.
Qed.

Lemma aggregate_cover_missing_column_witness :
  let d := mkFrame 1 (<[Some "percent" := [PFloat f20]]> ∅) in
  [OFrame d] !! 0%nat = Some (OFrame d) /\
  aggregate_cover 0%nat (Some "bb") None [OFrame d]
  = (<[0%nat := OFrame (set_column d None (replicate (nrows d) (PFloat nan)))]> [OFrame d],
     Raise (KeyError_column (Some "bb"))).
Proof.
  cbv zeta. split; [reflexivity|].
  apply (proj2 (proj2 (aggregate_cover_missing_column
                         [OFrame (mkFrame 1 (<[Some "percent" := [PFloat f20]]> ∅))]
                         0%nat _ (Some "bb") eq_refl)));
    [discriminate | reflexivity].
Defined.

Lemma zero_where_percent_other (d d1 : DataFrame) (bb_scale percent k : colname) :
  zero_where_percent d bb_scale percent = Return d1 ->
  k <> bb_scale -> columns d1 !! k = columns d !! k.
Proof.
  unfold zero_where_percent, df_setitem_mask, df_getitem.
  destruct (columns d !! bb_scale); cbn [obind omap]; [|discriminate].
  destruct (columns d !! percent); cbn [obind omap]; [|discriminate].
  intros H Hk. inversion H; subst. cbn [set_column columns].
  apply lookup_insert_ne. congruence.
Qed.

Lemma convert_and_sum_needs_percent (d : DataFrame) (bb_scale : colname) :
  columns d !! Some "percent" = None ->
  exists e, convert_and_sum d bb_scale = Raise e.
Proof.
  intros Hp. unfold convert_and_sum.
  destruct (df_getitem d bb_scale) as [l|e]; cbn [obind]; [|eexists; reflexivity].
  destruct (bb2percent_value l) as [ys|e]; cbn [obind]; [|eexists; reflexivity].
  unfold df_setitem at 1.
  destruct (Nat.eqb (length ys) (nrows d)); cbn [obind]; [|eexists; reflexivity].
  unfold df_getitem at 1. cbn [set_column columns].
  rewrite lookup_insert_ne by discriminate. rewrite Hp. cbn [obind].
  eexists. reflexivity.
Qed.

Lemma aggregate_value_needs_percent (d : DataFrame) (bb_scale percent : colname) :
  columns d !! Some "percent" = None ->
  exists e, aggregate_value d bb_scale percent = Raise e.
Proof.
  intros Hp. unfold aggregate_value.
  destruct (zero_where_percent (percent_default d percent) bb_scale percent)
    as [d1|e] eqn:Z; cbn [obind]; [|eexists; reflexivity].
  apply convert_and_sum_needs_percent. rewrite fillna_percent.
  assert (P0 : columns (percent_default d percent) !! Some "percent" = None).
  { destruct percent as [pc|]; [exact Hp|].
    unfold percent_default, df_setitem_scalar, set_column. cbn [columns].
    rewrite lookup_insert_ne by discriminate. exact Hp. }
  destruct (decide (Some "percent" = bb_scale)) as [<-|Hne].
  - unfold zero_where_percent, df_getitem in Z. rewrite P0 in Z. discriminate.
  - rewrite (zero_where_percent_other _ _ _ _ _ Z Hne), P0. reflexivity.
Qed.

(** X5. [aggregate_cover] returns a table only for a table that has a column
    with the literal label [percent]: without one every call raises,
    whatever [bb_scale] and [percent] are, the call with [percent] left out
    and the call that names another column of percentages included. *)
Theorem aggregate_cover_needs_column_percent (h : heap) (veg : loc) (d : DataFrame)
        (bb_scale percent : colname) :
  h !! veg = Some (OFrame d) ->
  columns d !! Some "percent" = None ->
  exists e, snd (aggregate_cover veg bb_scale percent h) = Raise e.
Proof.
  intros Hd Hp.
  destruct (aggregate_cover_run h veg d bb_scale percent Hd) as (L & R & _).
  rewrite R. cbn [snd].
  destruct (aggregate_value_needs_percent d bb_scale percent Hp) as [e ->].
  exists e. reflexivity.
Qed.

Lemma aggregate_cover_needs_column_percent_witness :
  let d := mkFrame 1 (<[Some "bb" := [PStr "5"]]> (<[Some "pc" := [PFloat f20]]> ∅)) in
  [OFrame d] !! 0%nat = Some (OFrame d) /\
  columns d !! Some "percent" = None /\
  snd (aggregate_cover 0%nat (Some "bb") (Some "pc") [OFrame d])
  = Raise (KeyError_column (Some "percent")) /\
  exists e, snd (aggregate_cover 0%nat (Some "bb") (Some "pc") [OFrame d]) = Raise e.
Proof.
  cbv zeta. split; [reflexivity|]. split; [reflexivity|].
  split; [vm_compute; reflexivity|].
  exact (aggregate_cover_needs_column_percent
           [OFrame (mkFrame 1 (<[Some "bb" := [PStr "5"]]> (<[Some "pc" := [PFloat f20]]> ∅)))]
           0%nat _ (Some "bb") (Some "pc") eq_refl eq_refl).
Defined.

Lemma mask_assign_agree (p b b' : list pyval) :
  length b' = length b ->
  (forall i c c' x, b !! i = Some c -> b' !! i = Some c' -> p !! i = Some x ->
                    isna x = true -> c = c') ->
  mask_assign (map (fun v => negb (isna v)) p) (PInt 0) b'
  = mask_assign (map (fun v => negb (isna v)) p) (PInt 0) b.
Proof.
  unfold mask_assign. revert b b'.
  induction p as [|x p IH]; intros b b' L A; [reflexivity|].
  destruct b as [|c b], b' as [|c' b']; try discriminate; [reflexivity|].
  cbn [map zip_with]. f_equal.
  - destruct (isna x) eqn:N; [|reflexivity]. cbn [negb].
    symmetry. apply (A 0%nat c c' x); reflexivity || exact N.
  - apply IH; [simpl in L; lia|].
    intros i a a' y. apply (A (S i)).
Qed.

(** X6. Where a row has a percent, its code plays no part: two tables that
    differ only in the codes of such rows give the same call in every
    respect, the same heap after it and the same table or exception.  A code
    that [float] could not read does no harm in such a row. *)
Theorem codes_beside_a_percent_are_ignored (h : heap) (veg : loc) (d : DataFrame)
        (bb_scale : colname) (pc : string) (b b' p : list pyval) :
  h !! veg = Some (OFrame d) ->
  columns d !! bb_scale = Some b -> columns d !! Some pc = Some p ->
  bb_scale <> Some pc ->
  length b' = length b ->
  (forall i c c' x, b !! i = Some c -> b' !! i = Some c' -> p !! i = Some x ->
                    isna x = true -> c = c') ->
  aggregate_cover veg bb_scale (Some pc) (<[veg := OFrame (set_column d bb_scale b')]> h)
  = aggregate_cover veg bb_scale (Some pc) h.
Proof.
  intros Hd Hb Hp Hne L A.
  destruct (aggregate_cover_first_lines h veg d bb_scale (Some pc) Hd) as [Hv ->].
  assert (Hd' : <[veg := OFrame (set_column d bb_scale b')]> h !! veg
                = Some (OFrame (set_column d bb_scale b')))
    by (apply list_lookup_insert_eq; exact Hv).
  rewrite (proj2 (aggregate_cover_first_lines _ veg _ bb_scale (Some pc) Hd')).
  unfold zero_where_percent, percent_default, df_setitem_mask, df_getitem.
  cbn [set_column columns].
  rewrite lookup_insert_eq, lookup_insert_ne by exact Hne.
  rewrite Hb, Hp. cbn [obind omap].
  rewrite list_insert_insert_eq. unfold set_column. cbn [nrows columns].
  rewrite insert_insert_eq, (mask_assign_agree p b b' L A). reflexivity.
Qed.

Lemma codes_beside_a_percent_are_ignored_witness :
  let d := mkFrame 2 (<[Some "bb_scale" := [PStr "5"; PStr "3"]]>
                        (<[Some "percent" := [PFloat f20; PNone]]> ∅)) in
  aggregate_cover 0%nat (Some "bb_scale") (Some "percent")
    [OFrame (set_column d (Some "bb_scale") [PStr "no code"; PStr "3"])]
  = aggregate_cover 0%nat (Some "bb_scale") (Some "percent") [OFrame d].
Proof.
  cbv zeta.
  apply (codes_beside_a_percent_are_ignored
           [OFrame (mkFrame 2 (<[Some "bb_scale" := [PStr "5"; PStr "3"]]>
                                 (<[Some "percent" := [PFloat f20; PNone]]> ∅)))]
           0%nat _ (Some "bb_scale") "percent"
           [PStr "5"; PStr "3"] [PStr "no code"; PStr "3"] [PFloat f20; PNone]);
    try reflexivity; try discriminate.
  intros [|[|i]] c c' x Hc Hc' Hx N.
  - inversion Hx; subst. discriminate.
  - inversion Hc; inversion Hc'; subst. reflexivity.
  - discriminate.
Defined.

(** ** Comparisons and the stable sort *)

Section CmpLaws.
Context {A : Type} (cmp : A -> A -> comparison) (L : cmp_laws cmp).

Lemma cmp_refl (a : A) : cmp a a = Eq.
Proof.
  pose proof (cmp_antisym cmp L a a) as H. destruct (cmp a a); simpl in H; congruence.
Qed.

Lemma cmp_eq_sym (a b : A) : cmp a b = Eq -> cmp b a = Eq.
Proof. intros H. rewrite (cmp_antisym cmp L a b), H. reflexivity. Qed.

Lemma cmp_eq_r (a b c : A) : cmp b c = Eq -> cmp a b = cmp a c.
Proof.
  intros H. apply cmp_eq_sym in H as H'.
  pose proof (cmp_eq_l cmp L b c a H) as E.
  rewrite (cmp_antisym cmp L b a), (cmp_antisym cmp L c a), E. reflexivity.
Qed.

Lemma cmp_le_trans (a b c : A) :
  cmp a b <> Gt -> cmp b c <> Gt -> cmp a c <> Gt.
Proof.
  intros H1 H2.
  destruct (cmp a b) eqn:E1; [| |congruence].
  - rewrite (cmp_eq_l cmp L a b c E1). exact H2.
  - destruct (cmp b c) eqn:E2; [| |congruence].
    + rewrite <- (cmp_eq_r a b c E2), E1. discriminate.
    + rewrite (cmp_lt_trans cmp L a b c E1 E2). discriminate.
Qed.

Lemma cmp_gt_lt (a b : A) : cmp a b = Gt -> cmp b a = Lt.
Proof. intros H. rewrite (cmp_antisym cmp L a b), H. reflexivity. Qed.

Lemma cmp_not_lt (a b : A) : cmp a b <> Lt -> cmp b a <> Gt.
Proof.
  intros H G. apply H. rewrite (cmp_antisym cmp L b a), G. reflexivity.
Qed.

End CmpLaws.

(** The comparison of a pair of keys, the first key first. *)
Lemma lex_laws {A : Type} (c1 c2 : A -> A -> comparison) :
  cmp_laws c1 -> cmp_laws c2 ->
  cmp_laws (fun a b => match c1 a b with Eq => c2 a b | o => o end).
Proof.
  intros L1 L2. split.
  - intros a b. rewrite (cmp_antisym c1 L1 a b), (cmp_antisym c2 L2 a b).
    destruct (c1 a b); reflexivity.
  - intros a b c H.
    destruct (c1 a b) eqn:E1; try discriminate.
    rewrite (cmp_eq_l c1 L1 a b c E1), (cmp_eq_l c2 L2 a b c H). reflexivity.
  - intros a b c H1 H2.
    destruct (c1 a b) eqn:E1; try discriminate.
    + rewrite (cmp_eq_l c1 L1 a b c E1).
      destruct (c1 b c) eqn:E2; try discriminate; [|reflexivity].
      apply (cmp_lt_trans c2 L2 a b c H1 H2).
    + destruct (c1 b c) eqn:E2; try discriminate.
      * rewrite <- (cmp_eq_r c1 L1 a b c E2), E1. reflexivity.
      * rewrite (cmp_lt_trans c1 L1 a b c E1 E2). reflexivity.
Qed.

Lemma flip_laws {A : Type} (c : A -> A -> comparison) :
  cmp_laws c -> cmp_laws (fun a b => c b a).
Proof.
  intros L. split.
  - intros a b. apply (cmp_antisym c L).
  - intros a b d H. apply (cmp_eq_r c L). apply (cmp_eq_sym c L). exact H.
  - intros a b d H1 H2. apply (cmp_lt_trans c L d b a H2 H1).
Qed.

Lemma pull_laws {A B : Type} (c : B -> B -> comparison) (f : A -> B) :
  cmp_laws c -> cmp_laws (fun a b => c (f a) (f b)).
Proof.
  intros L. split.
  - intros a b. apply (cmp_antisym c L).
  - intros a b d. apply (cmp_eq_l c L).
  - intros a b d. apply (cmp_lt_trans c L).
Qed.

Lemma const_eq_laws {A : Type} : cmp_laws (fun _ _ : A => Eq).
Proof. split; intros; reflexivity || assumption. Qed.

Section StableSort.
Context {A : Type} (cmp : A -> A -> comparison).

Lemma insert_by_perm (x : A) (l : list A) : insert_by cmp x l ≡ₚ x :: l.
Proof.
  induction l as [|y l IH]; simpl; [reflexivity|].
  destruct (cmp y x); try reflexivity.
  rewrite IH. apply perm_swap.
Qed.

Lemma sort_by_perm (l : list A) : sort_by cmp l ≡ₚ l.
Proof.
  induction l as [|x l IH]; simpl; [reflexivity|].
  unfold sort_by in *. simpl. rewrite insert_by_perm, IH. reflexivity.
Qed.

Lemma sort_by_length (l : list A) : length (sort_by cmp l) = length l.
Proof. apply Permutation_length, sort_by_perm. Qed.

Context (L : cmp_laws cmp) (R : A -> A -> Prop).

Lemma insert_by_sorted (x : A) (l : list A) :
  StronglySorted (stable_before cmp R) l -> Forall (R x) l ->
  StronglySorted (stable_before cmp R) (insert_by cmp x l).
Proof.
  induction l as [|y l IH]; simpl; intros S F.
  - constructor; constructor.
  - apply StronglySorted_inv in S as [S Fy].
    apply Forall_cons in F as [Rxy F].
    destruct (cmp y x) eqn:E.
    + assert (Hxy : stable_before cmp R x y).
      { right. split; [apply (cmp_eq_sym cmp L), E | exact Rxy]. }
      constructor; [constructor; assumption|].
      constructor; [exact Hxy|].
      rewrite Forall_forall in Fy, F. apply Forall_forall. intros z Hz.
      specialize (Fy z Hz). specialize (F z Hz).
      assert (N : cmp x z <> Gt).
      { apply (cmp_le_trans cmp L x y z).
        - rewrite (cmp_eq_sym cmp L y x E). discriminate.
        - destruct Fy as [->|[-> _]]; discriminate. }
      destruct (cmp x z) eqn:C; [right; split; [exact C|exact F] | left; exact C | congruence].
    + constructor; [apply IH; assumption|].
      rewrite insert_by_perm. constructor; [left; exact E | exact Fy].
    + assert (Hxy : stable_before cmp R x y).
      { left. apply (cmp_gt_lt cmp L), E. }
      constructor; [constructor; assumption|].
      constructor; [exact Hxy|].
      rewrite Forall_forall in Fy, F. apply Forall_forall. intros z Hz.
      specialize (Fy z Hz). specialize (F z Hz).
      assert (N : cmp x z <> Gt).
      { apply (cmp_le_trans cmp L x y z).
        - rewrite (cmp_gt_lt cmp L y x E). discriminate.
        - destruct Fy as [->|[-> _]]; discriminate. }
      destruct (cmp x z) eqn:C; [right; split; [exact C|exact F] | left; exact C | congruence].
Qed.

(** The sort is stable: the result is in the order of the keys, and where
    the keys are equal, in the order [R] of the list that was sorted. *)
Lemma sort_by_stable (l : list A) :
  StronglySorted R l -> StronglySorted (stable_before cmp R) (sort_by cmp l).
Proof.
  induction l as [|x l IH]; intros S.
  - constructor.
  - apply StronglySorted_inv in S as [S F].
    change (sort_by cmp (x :: l)) with (insert_by cmp x (sort_by cmp l)).
    apply insert_by_sorted; [apply IH, S|].
    rewrite sort_by_perm. exact F.
Qed.

End StableSort.

Lemma seq_strongly_sorted (s n : nat) : StronglySorted lt (seq s n).
Proof.
  revert s. induction n as [|n IH]; intros s; simpl; constructor; [apply IH|].
  apply Forall_forall. intros i Hi. apply elem_of_seq in Hi. lia.
Qed.

(** ** The order of the cells is an order *)

Lemma Qcompare_laws : cmp_laws Qcompare.
Proof.
  split.
  - intros a b. symmetry. apply Qcompare_antisym.
  - intros a b c H. apply Qeq_alt in H. rewrite H. reflexivity.
  - intros a b c H1 H2. apply Qlt_alt in H1, H2. apply Qlt_alt.
    apply (Qlt_trans _ _ _ H1 H2).
Qed.

Lemma xnum_compare_laws : cmp_laws xnum_compare.
Proof.
  pose proof Qcompare_laws as Q. split.
  - intros [|p|] [|q|]; simpl; try reflexivity. apply (cmp_antisym _ Q).
  - intros [|p|] [|q|] [|r|]; simpl; try reflexivity; try discriminate.
    apply (cmp_eq_l _ Q).
  - intros [|p|] [|q|] [|r|]; simpl; try reflexivity; try discriminate.
    apply (cmp_lt_trans _ Q).
Qed.

Lemma string_compare_laws : cmp_laws String.compare.
Proof.
  split.
  - intros a b. apply String.compare_antisym.
  - intros a b c H. apply String.compare_eq_iff in H. subst. reflexivity.
  - intros a b c H1 H2.
    apply String_as_OT.cmp_lt. apply String_as_OT.cmp_lt in H1, H2.
    apply (String_as_OT.lt_trans _ _ _ H1 H2).
Qed.

Lemma value_compare_laws : cmp_laws value_compare.
Proof.
  pose proof xnum_compare_laws as X. pose proof string_compare_laws as S. split.
  - intros [x|s|] [y|t|]; simpl; try reflexivity.
    + apply (cmp_antisym _ X).
    + apply (cmp_antisym _ S).
  - intros [x|s|] [y|t|] [z|u|]; simpl; try reflexivity; try discriminate.
    + apply (cmp_eq_l _ X).
    + apply (cmp_eq_l _ S).
  - intros [x|s|] [y|t|] [z|u|]; simpl; try reflexivity; try discriminate.
    + apply (cmp_lt_trans _ X).
    + apply (cmp_lt_trans _ S).
Qed.

Lemma key_compare_laws (ascending : bool) : cmp_laws (key_compare ascending).
Proof.
  pose proof xnum_compare_laws as X. pose proof string_compare_laws as S.
  destruct ascending; split.
  - intros [x|s|] [y|t|]; simpl; try reflexivity.
    + apply (cmp_antisym _ X).
    + apply (cmp_antisym _ S).
  - intros [x|s|] [y|t|] [z|u|]; simpl; try reflexivity; try discriminate.
    + apply (cmp_eq_l _ X).
    + apply (cmp_eq_l _ S).
  - intros [x|s|] [y|t|] [z|u|]; simpl; try reflexivity; try discriminate.
    + apply (cmp_lt_trans _ X).
    + apply (cmp_lt_trans _ S).
  - intros [x|s|] [y|t|]; simpl; try reflexivity.
    + apply (cmp_antisym _ (flip_laws _ X)).
    + apply (cmp_antisym _ (flip_laws _ S)).
  - intros [x|s|] [y|t|] [z|u|]; simpl; try reflexivity; try discriminate.
    + apply (cmp_eq_l _ (flip_laws _ X)).
    + apply (cmp_eq_l _ (flip_laws _ S)).
  - intros [x|s|] [y|t|] [z|u|]; simpl; try reflexivity; try discriminate.
    + apply (cmp_lt_trans _ (flip_laws _ X)).
    + apply (cmp_lt_trans _ (flip_laws _ S)).
Qed.

Lemma rows_compare_laws (keys : list (list pyval * bool)) :
  cmp_laws (rows_compare keys).
Proof.
  induction keys as [|[c ascending] keys IH].
  - apply const_eq_laws.
  - apply (lex_laws (fun i j => key_compare ascending (cell_key_at c i) (cell_key_at c j))
                    (rows_compare keys)); [|exact IH].
    apply (pull_laws (key_compare ascending) (cell_key_at c)), key_compare_laws.
Qed.

(** ** Rows taken from a column *)

Lemma take_rows_map {A : Type} (idx : list nat) (c : list A) :
  Forall (fun i => (i < length c)%nat) idx ->
  map Some (take_rows idx c) = map (fun i => c !! i) idx.
Proof.
  induction 1 as [|i idx Hi _ IH]; simpl; [reflexivity|].
  destruct (lookup_lt_is_Some_2 c i Hi) as [x Hx]. rewrite Hx. simpl.
  rewrite IH. reflexivity.
Qed.

Lemma take_rows_length {A : Type} (idx : list nat) (c : list A) :
  Forall (fun i => (i < length c)%nat) idx ->
  length (take_rows idx c) = length idx.
Proof.
  intros F. rewrite <- (length_map Some), (take_rows_map idx c F), length_map.
  reflexivity.
Qed.

Lemma take_rows_lookup {A : Type} (idx : list nat) (c : list A) (j i : nat) :
  Forall (fun i => (i < length c)%nat) idx ->
  idx !! j = Some i -> take_rows idx c !! j = c !! i.
Proof.
  intros F Hj.
  assert (E : map Some (take_rows idx c) !! j = Some (c !! i)).
  { rewrite (take_rows_map idx c F), list_lookup_fmap, Hj. reflexivity. }
  rewrite list_lookup_fmap in E.
  destruct (take_rows idx c !! j); simpl in E; congruence.
Qed.

Lemma take_rows_perm {A : Type} (idx idx' : list nat) (c : list A) :
  idx ≡ₚ idx' -> take_rows idx c ≡ₚ take_rows idx' c.
Proof.
  induction 1 as [|i l l' _ IH|i j l|l l' l'' _ IH1 _ IH2]; simpl.
  - reflexivity.
  - destruct (c !! i); [constructor|]; exact IH.
  - destruct (c !! i), (c !! j); try reflexivity. apply perm_swap.
  - etransitivity; eassumption.
Qed.

Lemma take_rows_seq_app {A : Type} (p c : list A) :
  take_rows (seq (length p) (length c)) (p ++ c) = c.
Proof.
  revert p. induction c as [|x c IH]; intros p; simpl; [reflexivity|].
  rewrite list_lookup_middle by reflexivity. f_equal.
  specialize (IH (p ++ [x])). rewrite length_app, Nat.add_1_r in IH.
  rewrite <- app_assoc in IH. exact IH.
Qed.

Lemma take_rows_seq {A : Type} (c : list A) : take_rows (seq 0 (length c)) c = c.
Proof. apply (take_rows_seq_app [] c). Qed.

(** A permutation of the row numbers takes the cells of a column to a
    permutation of them. *)
Lemma take_rows_all {A : Type} (idx : list nat) (c : list A) :
  idx ≡ₚ seq 0 (length c) -> take_rows idx c ≡ₚ c.
Proof.
  intros P. rewrite (take_rows_perm _ _ c P), take_rows_seq. reflexivity.
Qed.

Lemma perm_seq_bound (idx : list nat) (n : nat) :
  idx ≡ₚ seq 0 n -> Forall (fun i => (i < n)%nat) idx.
Proof.
  intros P. rewrite P. apply Forall_forall. intros i Hi.
  apply elem_of_seq in Hi. lia.
Qed.

Lemma StronglySorted_lookup_lt {A : Type} (R : A -> A -> Prop) (l : list A)
      (p q : nat) (a b : A) :
  StronglySorted R l -> (p < q)%nat -> l !! p = Some a -> l !! q = Some b -> R a b.
Proof.
  intros S. revert p q. induction S as [|x l S IH F]; intros p q Hpq Hp Hq.
  - discriminate.
  - destruct q as [|q]; [lia|]. destruct p as [|p].
    + simpl in Hp, Hq. inversion Hp; subst.
      rewrite Forall_forall in F. apply F. eapply list_elem_of_lookup_2, Hq.
    + simpl in Hp, Hq. apply (IH p q); [lia|assumption..].
Qed.

Lemma StronglySorted_weaken {A : Type} (R S : A -> A -> Prop) (l : list A) :
  (forall a b, R a b -> S a b) -> StronglySorted R l -> StronglySorted S l.
Proof.
  intros I. induction 1 as [|x l _ IH F]; constructor; [exact IH|].
  eapply Forall_impl; [exact F|]. intros b. apply I.
Qed.

(** ** [sort_values] and [arrange_veg] *)

Lemma frame_wf_empty (n : nat) : frame_wf (mkFrame n ∅).
Proof. intros k c. simpl. rewrite lookup_empty. discriminate. Qed.

Lemma frame_wf_insert (n : nat) (m : gmap colname (list pyval)) (k : colname)
      (c : list pyval) :
  frame_wf (mkFrame n m) -> length c = n -> frame_wf (mkFrame n (<[k := c]> m)).
Proof. intros W E. apply (set_column_wf (mkFrame n m) k c W E). Qed.

Lemma sort_values_return (d : DataFrame) (by_ : list (colname * bool))
      (keys : list (list pyval * bool)) :
  traverse (fun kb => omap (fun c => (c, snd kb)) (df_getitem d (fst kb))) by_
  = Return keys ->
  sort_values d by_
  = Return (mkFrame (nrows d)
              (take_rows (sort_by (rows_compare keys) (seq 0 (nrows d))) <$> columns d)).
Proof. intros H. unfold sort_values. rewrite H. reflexivity. Qed.

Lemma Return_inj {A : Type} (a b : A) : Return a = Return b -> a = b.
Proof. intros H. inversion H. reflexivity. Qed.

(** What [sort_values] returns for the keys [keys]: the rows of the table in
    the order of the keys, stable. *)
Lemma sorted_frame (d : DataFrame) (keys : list (list pyval * bool)) :
  frame_wf d ->
  let idx := sort_by (rows_compare keys) (seq 0 (nrows d)) in
  idx ≡ₚ seq 0 (nrows d) /\
  (forall k c j i, columns d !! k = Some c -> idx !! j = Some i ->
     take_rows idx c !! j = c !! i) /\
  (forall p q i j, (p < q)%nat -> idx !! p = Some i -> idx !! q = Some j ->
     rows_compare keys i j = Lt \/ (rows_compare keys i j = Eq /\ (i < j)%nat)).
Proof.
  intros W idx.
  assert (P : idx ≡ₚ seq 0 (nrows d)) by apply sort_by_perm.
  split; [exact P|]. split.
  - intros k c j i Hc Hj. apply take_rows_lookup; [|exact Hj].
    rewrite (W k c Hc). apply perm_seq_bound, P.
  - intros p q i j Hpq Hp Hq.
    apply (StronglySorted_lookup_lt (stable_before (rows_compare keys) lt) idx p q i j);
      [|assumption..].
    apply sort_by_stable; [apply rows_compare_laws | apply seq_strongly_sorted].
Qed.

Lemma sorted_first_key (d : DataFrame) (k : colname) (c : list pyval)
      (ascending : bool) (keys : list (list pyval * bool)) (p q : nat) :
  frame_wf d -> columns d !! k = Some c ->
  let idx := sort_by (rows_compare ((c, ascending) :: keys)) (seq 0 (nrows d)) in
  (p < q)%nat -> (q < nrows d)%nat ->
  key_compare ascending (cell_key_at (take_rows idx c) p)
              (cell_key_at (take_rows idx c) q) <> Gt.
Proof.
  intros W Hc idx Hpq Hq.
  destruct (sorted_frame d ((c, ascending) :: keys) W) as (P & T & S).
  fold idx in P, T, S.
  assert (Li : length idx = nrows d).
  { rewrite (Permutation_length P). apply length_seq. }
  destruct (lookup_lt_is_Some_2 idx p) as [i Hi]; [lia|].
  destruct (lookup_lt_is_Some_2 idx q) as [j Hj]; [lia|].
  unfold cell_key_at.
  rewrite (T k c p i Hc Hi), (T k c q j Hc Hj).
  change (key_compare ascending (cell_key_at c i) (cell_key_at c j) <> Gt).
  specialize (S p q i j Hpq Hi Hj). cbn [rows_compare] in S.
  destruct (key_compare ascending (cell_key_at c i) (cell_key_at c j));
    [discriminate|discriminate|].
  destruct S as [S|[S _]]; discriminate.
Qed.

(** X7. With a column [ab] or [ly], [arrange_veg] returns a new table with
    the rows of the table it got, each row whole and none lost or doubled, in
    this order: by ascending site; within a site by ascending layer, if there
    is a column [ly]; then by descending abundance, if there is a column
    [ab]; rows that agree in all of these stay in the order they had.  In
    each key the missing cells come last.  So the sites of the table that is
    returned ascend from row to row. *)
Theorem arrange_veg_sorts_the_rows (veg r : DataFrame) :
  frame_wf veg ->
  has_column veg (Some "ab") || has_column veg (Some "ly") = true ->
  arrange_veg veg = Return r ->
  exists (st : list pyval) (idx : list nat),
    columns veg !! Some "st" = Some st /\
    idx ≡ₚ seq 0 (nrows veg) /\
    nrows r = nrows veg /\
    (forall k, columns r !! k = take_rows idx <$> columns veg !! k) /\
    (forall k c j i, columns veg !! k = Some c -> idx !! j = Some i ->
       take_rows idx c !! j = c !! i) /\
    let keys :=
      (st, true)
      :: match columns veg !! Some "ly" with Some ly => [(ly, true)] | None => [] end
      ++ match columns veg !! Some "ab" with Some ab => [(ab, false)] | None => [] end in
    (forall p q i j, (p < q)%nat -> idx !! p = Some i -> idx !! q = Some j ->
       rows_compare keys i j = Lt \/ (rows_compare keys i j = Eq /\ (i < j)%nat)) /\
    (forall p q, (p < q)%nat -> (q < nrows veg)%nat ->
       key_compare true (cell_key_at (take_rows idx st) p)
                   (cell_key_at (take_rows idx st) q) <> Gt).
Proof.
  intros W Hcols. unfold arrange_veg, has_ab_ly, has_column in *.
  destruct (columns veg !! Some "st") as [st|] eqn:Hst.
  - destruct (columns veg !! Some "ab") as [ab|] eqn:Hab;
      destruct (columns veg !! Some "ly") as [ly|] eqn:Hly;
      try discriminate; cbn [andb negb orb String.eqb Ascii.eqb Bool.eqb];
      (erewrite sort_values_return
         by (cbn [traverse fst snd]; unfold df_getitem;
             rewrite Hst, ?Hly, ?Hab; reflexivity));
      intros H; apply Return_inj in H; subst r;
      exists st; eexists; (split; [reflexivity|]);
      match goal with
      | |- context [sort_by (rows_compare ?keys) _] =>
          destruct (sorted_frame veg keys W) as (P & T & S)
      end;
      (split; [exact P|]); (split; [reflexivity|]);
      (split; [intros k; cbn [columns]; apply lookup_fmap|]);
      (split; [exact T|]); (split; [exact S|]);
      intros p q; apply (sorted_first_key veg (Some "st") st true _ p q W Hst).
  - destruct (columns veg !! Some "ab") as [ab|] eqn:Hab;
      destruct (columns veg !! Some "ly") as [ly|] eqn:Hly;
      try discriminate; cbn [andb negb orb String.eqb Ascii.eqb Bool.eqb];
      unfold sort_values; cbn [traverse fst snd]; unfold df_getitem;
      rewrite Hst; discriminate.
Qed.

Lemma arrange_veg_sorts_the_rows_witness :
  let veg := mkFrame 3 (<[Some "st" := [PStr "B"; PStr "A"; PStr "A"]]>
                       (<[Some "sp" := [PStr "x"; PStr "y"; PStr "z"]]>
                       (<[Some "ab" := [PFloat f5; PFloat f10; PFloat f20]]> ∅))) in
  let r := mkFrame 3 (take_rows [2; 1; 0]%nat <$> columns veg) in
  arrange_veg veg = Return r /\
  columns r !! Some "sp" = Some [PStr "z"; PStr "y"; PStr "x"] /\
  exists (st : list pyval) (idx : list nat),
    columns veg !! Some "st" = Some st /\ idx ≡ₚ seq 0 (nrows veg) /\
    forall k, columns r !! k = take_rows idx <$> columns veg !! k.
Proof.
  cbv zeta.
  assert (H : arrange_veg
                (mkFrame 3 (<[Some "st" := [PStr "B"; PStr "A"; PStr "A"]]>
                           (<[Some "sp" := [PStr "x"; PStr "y"; PStr "z"]]>
                           (<[Some "ab" := [PFloat f5; PFloat f10; PFloat f20]]> ∅))))
              = Return (mkFrame 3 (take_rows [2; 1; 0]%nat <$>
                          (<[Some "st" := [PStr "B"; PStr "A"; PStr "A"]]>
                           (<[Some "sp" := [PStr "x"; PStr "y"; PStr "z"]]>
                           (<[Some "ab" := [PFloat f5; PFloat f10; PFloat f20]]> ∅))))))
    by (vm_compute; reflexivity).
  split; [exact H|]. split; [vm_compute; reflexivity|].
  match type of H with
  | arrange_veg ?v = _ => assert (W : frame_wf v)
  end.
  { repeat (apply frame_wf_insert; [|reflexivity]). apply frame_wf_empty. }
  destruct (arrange_veg_sorts_the_rows _ _ W eq_refl H)
    as (st & idx & Hst & P & _ & C & _).
  exists st, idx. split; [exact Hst|]. split; [exact P|exact C].
Defined.

(** X8. [arrange_veg] returns a table unless the table it gets has a column
    [ab] or [ly] and no column [st]: then it raises the KeyError of [st].
    Without the columns [ab] and [ly] it returns the table as it is: nothing
    is sorted then, not even by site, and a column [st] is not asked for. *)
Theorem arrange_veg_returns_unless_st_is_missing (veg : DataFrame) :
  (has_column veg (Some "ab") || has_column veg (Some "ly") = false ->
   arrange_veg veg = Return veg) /\
  (has_column veg (Some "ab") || has_column veg (Some "ly") = true ->
   has_column veg (Some "st") = false ->
   arrange_veg veg = Raise (KeyError_column (Some "st"))) /\
  (has_column veg (Some "st") = true -> exists r, arrange_veg veg = Return r) /\
  arrange_veg (mkFrame 2 (<[Some "st" := [PStr "B"; PStr "A"]]>
                            (<[Some "sp" := [PStr "x"; PStr "y"]]> ∅)))
  = Return (mkFrame 2 (<[Some "st" := [PStr "B"; PStr "A"]]>
                         (<[Some "sp" := [PStr "x"; PStr "y"]]> ∅))).
Proof.
  unfold arrange_veg, has_ab_ly, has_column.
  split; [|split; [|split]].
  - destruct (columns veg !! Some "ab"), (columns veg !! Some "ly");
      try discriminate. reflexivity.
  - destruct (columns veg !! Some "st") eqn:Hst; [discriminate|].
    destruct (columns veg !! Some "ab"), (columns veg !! Some "ly");
      try discriminate; intros _ _;
      cbn [andb negb orb String.eqb Ascii.eqb Bool.eqb];
      unfold sort_values; cbn [traverse fst snd]; unfold df_getitem;
      rewrite Hst; reflexivity.
  - destruct (columns veg !! Some "st") as [st|] eqn:Hst; [|discriminate].
    intros _.
    destruct (columns veg !! Some "ab") as [ab|] eqn:Hab;
      destruct (columns veg !! Some "ly") as [ly|] eqn:Hly;
      cbn [andb negb orb String.eqb Ascii.eqb Bool.eqb];
      try (eexists; reflexivity);
      (erewrite sort_values_return
         by (cbn [traverse fst snd]; unfold df_getitem;
             rewrite Hst, ?Hly, ?Hab; reflexivity));
      eexists; reflexivity.
  - vm_compute. reflexivity.
Qed.

(** ** [groupby] and [devide] *)

Lemma cell_eqb_refl (a : pyval) : cell_eqb a a = true.
Proof.
  unfold cell_eqb. rewrite (cmp_refl _ value_compare_laws). reflexivity.
Qed.

Lemma cell_eqb_sym (a b : pyval) : cell_eqb a b = cell_eqb b a.
Proof.
  unfold cell_eqb.
  rewrite (cmp_antisym _ value_compare_laws (cell_key_of b) (cell_key_of a)).
  destruct (value_compare (cell_key_of b) (cell_key_of a)); reflexivity.
Qed.

Lemma isna_key (a : pyval) : isna a = true <-> cell_key_of a = KNull.
Proof.
  destruct a as [|z|f|s]; simpl; try (split; [discriminate|discriminate]).
  - split; reflexivity.
  - destruct f; simpl; split; try discriminate; try reflexivity;
      destruct s; discriminate.
Qed.

Lemma cell_eqb_isna (a b : pyval) : cell_eqb a b = true -> isna a = isna b.
Proof.
  unfold cell_eqb. intros H.
  destruct (isna a) eqn:Na, (isna b) eqn:Nb; try reflexivity.
  - apply isna_key in Na. rewrite Na in H.
    destruct (cell_key_of b) eqn:Kb; try discriminate.
    apply isna_key in Kb. congruence.
  - apply isna_key in Nb. rewrite Nb in H.
    destruct (cell_key_of a) eqn:Ka; try discriminate.
    apply isna_key in Ka. congruence.
Qed.

Lemma existsb_false {A : Type} (f : A -> bool) (l : list A) :
  existsb f l = false <-> Forall (fun x => f x = false) l.
Proof.
  induction l as [|x l IH]; simpl.
  - split; [constructor|reflexivity].
  - rewrite orb_false_iff, IH, Forall_cons. reflexivity.
Qed.

Lemma uniques_elem (c seen : list pyval) (u : pyval) :
  u ∈ uniques c seen ->
  u ∈ c /\ isna u = false /\ Forall (fun s => cell_eqb u s = false) seen.
Proof.
  revert seen. induction c as [|x c IH]; intros seen; simpl; [inversion 1|].
  destruct (isna x) eqn:N; simpl.
  - intros H. destruct (IH _ H) as (H1 & H2 & H3). split; [right; exact H1|tauto].
  - destruct (existsb (cell_eqb x) seen) eqn:E.
    + intros H. destruct (IH _ H) as (H1 & H2 & H3). split; [right; exact H1|tauto].
    + intros H. apply elem_of_cons in H as [->|H].
      * split; [left|]. split; [exact N|]. apply existsb_false, E.
      * destruct (IH _ H) as (H1 & H2 & H3). split; [right; exact H1|].
        split; [exact H2|]. apply Forall_cons in H3. tauto.
Qed.

Lemma uniques_distinct (c seen : list pyval) :
  StronglySorted (fun a b => value_compare (cell_key_of a) (cell_key_of b) <> Eq)
                 (uniques c seen).
Proof.
  revert seen. induction c as [|x c IH]; intros seen; simpl; [constructor|].
  destruct (isna x || existsb (cell_eqb x) seen); [apply IH|].
  constructor; [apply IH|].
  apply Forall_forall. intros u Hu.
  destruct (uniques_elem _ _ _ Hu) as (_ & _ & F).
  apply Forall_cons in F as [F _]. rewrite cell_eqb_sym in F.
  unfold cell_eqb in F. intros E. rewrite E in F. discriminate.
Qed.

Lemma uniques_cover (c seen : list pyval) (x : pyval) :
  x ∈ c -> isna x = false ->
  (exists s, s ∈ seen /\ cell_eqb x s = true) \/
  (exists u, u ∈ uniques c seen /\ cell_eqb x u = true).
Proof.
  revert seen. induction c as [|y c IH]; intros seen Hx N; [inversion Hx|].
  simpl. apply elem_of_cons in Hx as [->|Hx].
  - rewrite N. simpl. destruct (existsb (cell_eqb y) seen) eqn:E.
    + left. apply existsb_exists in E as (s & Hs & E).
      exists s. split; [apply list_elem_of_In, Hs|exact E].
    + right. exists y. split; [left|apply cell_eqb_refl].
  - destruct (isna y || existsb (cell_eqb y) seen) eqn:D.
    + apply (IH seen Hx N).
    + destruct (IH (y :: seen) Hx N) as [(s & Hs & E)|(u & Hu & E)].
      * apply elem_of_cons in Hs as [->|Hs].
        -- right. exists y. split; [left|exact E].
        -- left. exists s. split; assumption.
      * right. exists u. split; [right; exact Hu|exact E].
Qed.

Lemma rows_of_elem (k : pyval) (c : list pyval) (s i : nat) :
  i ∈ rows_of k c s <->
  (s <= i)%nat /\ exists x, c !! (i - s)%nat = Some x /\ cell_eqb x k = true.
Proof.
  revert s. induction c as [|y c IH]; intros s; simpl.
  - split; [inversion 1|]. intros (_ & x & H & _). discriminate.
  - assert (T : i ∈ rows_of k c (S s) <->
                (s < i)%nat /\ exists x, (y :: c) !! (i - s)%nat = Some x
                                         /\ cell_eqb x k = true).
    { rewrite IH. split.
      - intros (Hi & x & Hx & E). split; [lia|]. exists x. split; [|exact E].
        replace (i - s)%nat with (S (i - S s)) by lia. exact Hx.
      - intros (Hi & x & Hx & E). split; [lia|]. exists x. split; [|exact E].
        replace (i - s)%nat with (S (i - S s)) in Hx by lia. exact Hx. }
    destruct (cell_eqb y k) eqn:E.
    + rewrite elem_of_cons, T. split.
      * intros [->|(Hi & x & Hx & Ex)].
        -- split; [lia|]. exists y. rewrite Nat.sub_diag. split; [reflexivity|exact E].
        -- split; [lia|]. exists x. split; assumption.
      * intros (Hi & x & Hx & Ex).
        destruct (decide (i = s)) as [->|Hne]; [left; reflexivity|].
        right. split; [lia|]. exists x. split; assumption.
    + rewrite T. split.
      * intros (Hi & x & Hx & Ex). split; [lia|]. exists x. split; assumption.
      * intros (Hi & x & Hx & Ex). split.
        -- destruct (decide (i = s)) as [->|Hne]; [|lia].
           rewrite Nat.sub_diag in Hx. simpl in Hx. inversion Hx; subst. congruence.
        -- exists x. split; assumption.
Qed.

Lemma rows_of_sorted (k : pyval) (c : list pyval) (s : nat) :
  StronglySorted lt (rows_of k c s).
Proof.
  revert s. induction c as [|y c IH]; intros s; simpl; [constructor|].
  destruct (cell_eqb y k); [|apply IH].
  constructor; [apply IH|]. apply Forall_forall. intros i Hi.
  apply rows_of_elem in Hi. lia.
Qed.

Lemma groupby_keys_sorted (c : list pyval) :
  StronglySorted (fun a b => value_compare (cell_key_of a) (cell_key_of b) = Lt)
    (sort_by (fun a b => value_compare (cell_key_of a) (cell_key_of b)) (uniques c [])).
Proof.
  pose proof (sort_by_stable
                (fun a b => value_compare (cell_key_of a) (cell_key_of b))
                (pull_laws value_compare cell_key_of value_compare_laws)
                (fun a b => value_compare (cell_key_of a) (cell_key_of b) <> Eq)
                (uniques c []) (uniques_distinct c [])) as S.
  eapply StronglySorted_weaken; [|exact S].
  intros a b [H|[H N]]; [exact H|contradiction].
Qed.

(** X9. [devide] splits a table by the values of the column [col]: there
    is one group for each distinct value that is not missing, the groups
    come by ascending value, and the group of a value holds exactly the rows
    that have this value, whole and in the order they have in the table.  A
    row without a value in [col] is in no group.  Without the column [col]
    the call raises KeyError. *)
Theorem devide_groups_by_value (df : DataFrame) (col : colname) :
  (columns df !! col = None -> devide df col = Raise (KeyError_column col)) /\
  (forall c, columns df !! col = Some c ->
     exists gs, devide df col = Return gs /\
       StronglySorted (fun a b => value_compare (cell_key_of a) (cell_key_of b) = Lt)
                      (map fst gs) /\
       (forall i x, c !! i = Some x -> isna x = false ->
          exists k g, (k, g) ∈ gs /\ cell_eqb x k = true) /\
       (forall k g, (k, g) ∈ gs ->
          isna k = false /\ k ∈ c /\
          exists idx, idx <> [] /\ StronglySorted lt idx /\
            (forall i, i ∈ idx <-> exists x, c !! i = Some x /\ cell_eqb x k = true) /\
            nrows g = length idx /\
            (forall l, columns g !! l = take_rows idx <$> columns df !! l))).
Proof.
  unfold devide, groupby, df_getitem. split.
  - intros ->. reflexivity.
  - intros c ->. cbn [obind]. eexists. split; [reflexivity|].
    set (keys := sort_by _ (uniques c [])).
    assert (K : forall k, k ∈ keys -> k ∈ uniques c []).
    { intros k Hk. unfold keys in Hk. rewrite sort_by_perm in Hk. exact Hk. }
    split; [|split].
    + rewrite map_map. cbn [fst]. rewrite map_id. apply groupby_keys_sorted.
    + intros i x Hx N.
      destruct (uniques_cover c [] x (list_elem_of_lookup_2 _ _ _ Hx) N)
        as [(s & Hs & _)|(u & Hu & E)]; [inversion Hs|].
      exists u. eexists. split; [|exact E].
      apply list_elem_of_fmap. exists u. split; [reflexivity|].
      unfold keys. rewrite sort_by_perm. exact Hu.
    + intros k g Hg. apply list_elem_of_fmap in Hg as (k' & E & Hk).
      inversion E; subst k' g. clear E.
      destruct (uniques_elem _ _ _ (K k Hk)) as (Hc & N & _).
      split; [exact N|]. split; [exact Hc|].
      exists (rows_of k c 0). split; [|split; [|split; [|split]]].
      * apply list_elem_of_lookup in Hc as [i Hi].
        assert (Hin : i ∈ rows_of k c 0).
        { apply rows_of_elem. split; [lia|]. exists k. rewrite Nat.sub_0_r.
          split; [exact Hi|apply cell_eqb_refl]. }
        intros E. rewrite E in Hin. inversion Hin.
      * apply rows_of_sorted.
      * intros i. rewrite rows_of_elem, Nat.sub_0_r. split.
        -- intros (_ & H). exact H.
        -- intros H. split; [lia|exact H].
      * reflexivity.
      * intros l. cbn [columns]. apply lookup_fmap.
Qed.

(** ** [prep_sp2vec] *)

Lemma cells_where_filter {A : Type} (k : pyval) (a : list pyval) (b : list A) :
  cells_where k a b = (filter (fun p => cell_eqb (fst p) k = true) (zip a b)).*2.
Proof.
  revert b. induction a as [|x a IH]; intros [|y b]; try reflexivity.
  cbn [cells_where zip_with]. rewrite filter_cons. cbn [fst].
  destruct (cell_eqb x k) eqn:E.
  - rewrite decide_True by reflexivity. cbn [fmap list_fmap snd]. f_equal. apply IH.
  - rewrite decide_False by discriminate. apply IH.
Qed.

Lemma rows_of_cells {A : Type} (k : pyval) (a : list pyval) (p b : list A) :
  length a = length b ->
  take_rows (rows_of k a (length p)) (p ++ b) = cells_where k a b.
Proof.
  revert p b. induction a as [|x a IH]; intros p [|y b] L; try discriminate;
    [reflexivity|].
  cbn [rows_of cells_where].
  assert (R : take_rows (rows_of k a (S (length p))) (p ++ y :: b) = cells_where k a b).
  { specialize (IH (p ++ [y]) b). rewrite length_app, Nat.add_1_r, <- app_assoc in IH.
    apply IH. simpl in L. lia. }
  destruct (cell_eqb x k); [|exact R].
  cbn [take_rows]. rewrite list_lookup_middle by reflexivity. f_equal. exact R.
Qed.

Lemma take_rows_zip {A B : Type} (idx : list nat) (a : list A) (b : list B) :
  length a = length b ->
  take_rows idx (zip a b) = zip (take_rows idx a) (take_rows idx b).
Proof.
  intros L. induction idx as [|i idx IH]; [reflexivity|].
  cbn [take_rows]. rewrite lookup_zip_with.
  destruct (a !! i) as [x|] eqn:Ha, (b !! i) as [y|] eqn:Hb; simpl.
  - f_equal. exact IH.
  - apply lookup_lt_Some in Ha. apply lookup_ge_None in Hb. lia.
  - apply lookup_lt_Some in Hb. apply lookup_ge_None in Ha. lia.
  - exact IH.
Qed.

Lemma cells_where_perm {A : Type} (k : pyval) (idx : list nat) (a : list pyval)
      (b : list A) :
  length a = length b -> idx ≡ₚ seq 0 (length a) ->
  cells_where k (take_rows idx a) (take_rows idx b) ≡ₚ cells_where k a b.
Proof.
  intros L P. rewrite !cells_where_filter, <- (take_rows_zip idx a b L).
  apply fmap_Permutation, filter_Permutation, take_rows_all.
  rewrite length_zip_with. rewrite <- L, Nat.min_id. exact P.
Qed.

(** The table [arrange_veg] returns holds the rows of the table it got. *)
Lemma arrange_veg_rows (veg veg' : DataFrame) :
  frame_wf veg -> arrange_veg veg = Return veg' ->
  exists idx, idx ≡ₚ seq 0 (nrows veg) /\ nrows veg' = nrows veg /\
              forall k, columns veg' !! k = take_rows idx <$> columns veg !! k.
Proof.
  intros W. unfold arrange_veg.
  assert (S : forall by_, sort_values veg by_ = Return veg' ->
    exists idx, idx ≡ₚ seq 0 (nrows veg) /\ nrows veg' = nrows veg /\
                forall k, columns veg' !! k = take_rows idx <$> columns veg !! k).
  { intros by_. unfold sort_values.
    destruct (traverse _ by_) as [keys|e]; cbn [obind]; [|discriminate].
    intros H. apply Return_inj in H. subst veg'.
    eexists. split; [apply sort_by_perm|]. split; [reflexivity|].
    intros k. apply lookup_fmap. }
  destruct (String.eqb (has_ab_ly veg) "has_both"); [apply S|].
  destruct (String.eqb (has_ab_ly veg) "has_ab"); [apply S|].
  destruct (String.eqb (has_ab_ly veg) "has_ly"); [apply S|].
  intros H. apply Return_inj in H. subst veg'.
  exists (seq 0 (nrows veg)). split; [reflexivity|]. split; [reflexivity|].
  intros k. destruct (columns veg !! k) as [c|] eqn:Hc; [|reflexivity].
  simpl. rewrite <- (W k c Hc), take_rows_seq. reflexivity.
Qed.

Lemma traverse_align_fst (gs : list (pyval * DataFrame)) (ys : list (pyval * pyval)) :
  traverse (fun site_df => omap (fun s => (fst site_df, PStr s))
                                (align_sp (snd site_df))) gs = Return ys ->
  map fst ys = map fst gs.
Proof.
  revert ys. induction gs as [|g gs IH]; intros ys; cbn [traverse].
  - intros H. apply Return_inj in H. subst. reflexivity.
  - destruct (align_sp (snd g)) as [s|e]; cbn [omap obind]; [|discriminate].
    destruct (traverse _ gs) as [ys'|e]; cbn [omap]; [|discriminate].
    intros H. apply Return_inj in H. subst. cbn [map fst]. f_equal.
    apply IH. reflexivity.
Qed.

Lemma rows_of_cells_0 {A : Type} (k : pyval) (a : list pyval) (b : list A) :
  length a = length b -> take_rows (rows_of k a 0) b = cells_where k a b.
Proof. apply (rows_of_cells k a [] b). Qed.

(** X10. The table [prep_sp2vec] returns has one row for each site of the
    survey, the sites in ascending order and each once, in the columns [st]
    and [sp].  The cell [sp] of a site is the string of the species names of
    the rows of this site, joined by single spaces in the order [arrange_veg]
    gives the rows; these are the species names the site has in the table
    that was given, each as often as there, none lost and none added.  Rows
    without a site do not appear. *)
Theorem prep_sp2vec_aligns_each_site (veg r : DataFrame) :
  frame_wf veg ->
  prep_sp2vec veg = Return r ->
  exists (arranged : DataFrame) (st st' sites aligned : list pyval),
    arrange_veg veg = Return arranged /\
    columns veg !! Some "st" = Some st /\
    columns arranged !! Some "st" = Some st' /\
    nrows r = length sites /\
    columns r = <[Some "st" := sites]> (<[Some "sp" := aligned]> ∅) /\
    length aligned = length sites /\
    StronglySorted (fun a b => value_compare (cell_key_of a) (cell_key_of b) = Lt)
                   sites /\
    (forall x, x ∈ st -> isna x = false ->
       exists k, k ∈ sites /\ cell_eqb x k = true) /\
    (forall j k, sites !! j = Some k ->
       isna k = false /\ k ∈ st /\
       exists (sp sp' : list pyval) (s : string),
         columns veg !! Some "sp" = Some sp /\
         columns arranged !! Some "sp" = Some sp' /\
         aligned !! j = Some (PStr s) /\
         str_join " " (cells_where k st' sp') = Return s /\
         cells_where k st' sp' ≡ₚ cells_where k st sp).
Proof.
  intros W H. unfold prep_sp2vec in H.
  destruct (arrange_veg veg) as [veg'|e] eqn:A; cbn [obind] in H; [|discriminate].
  destruct (arrange_veg_rows veg veg' W A) as (idx & P & N & C).
  unfold devide, groupby, df_getitem in H.
  destruct (columns veg' !! Some "st") as [st'|] eqn:Hst'; cbn [obind] in H;
    [|discriminate].
  pose proof Hst' as Hst0. rewrite C in Hst0.
  destruct (columns veg !! Some "st") as [st|] eqn:Hst; [|discriminate].
  cbn [fmap option_fmap option_map] in Hst0. apply (inj Some) in Hst0.
  set (keys := sort_by (fun a b => value_compare (cell_key_of a) (cell_key_of b))
                       (uniques st' [])) in H.
  set (G := fun k : pyval =>
              (k, mkFrame (length (rows_of k st' 0))
                          (take_rows (rows_of k st' 0) <$> columns veg'))) in H.
  destruct (traverse _ (map G keys)) as [ys|e] eqn:T; cbn [obind] in H; [|discriminate].
  apply Return_inj in H. subst r.
  assert (F : map fst ys = keys).
  { rewrite (traverse_align_fst _ _ T), map_map. apply map_id. }
  assert (B : Forall (fun i => (i < nrows veg)%nat) idx) by apply perm_seq_bound, P.
  assert (Pst : st' ≡ₚ st).
  { subst st'. apply take_rows_all. rewrite (W _ _ Hst). exact P. }
  assert (K : forall k, k ∈ keys -> k ∈ uniques st' []).
  { intros k Hk. unfold keys in Hk. rewrite sort_by_perm in Hk. exact Hk. }
  exists veg', st, st', (map fst ys), (map snd ys).
  split; [reflexivity|]. split; [reflexivity|]. split; [exact Hst'|].
  split; [cbn [nrows]; rewrite length_map; reflexivity|].
  split; [reflexivity|].
  split; [rewrite !length_map; reflexivity|].
  split; [rewrite F; apply groupby_keys_sorted|].
  split.
  - intros x Hx Nx. rewrite <- Pst in Hx.
    destruct (uniques_cover st' [] x Hx Nx) as [(s & Hs & _)|(u & Hu & E)];
      [inversion Hs|].
    exists u. split; [|exact E]. rewrite F. unfold keys. rewrite sort_by_perm. exact Hu.
  - intros j k Hj. rewrite F in Hj.
    assert (Hk : k ∈ keys) by (eapply list_elem_of_lookup_2, Hj).
    destruct (uniques_elem _ _ _ (K k Hk)) as (Hin & Nk & _).
    split; [exact Nk|]. split; [rewrite <- Pst; exact Hin|].
    assert (Hg : map G keys !! j = Some (G k)).
    { rewrite list_lookup_fmap, Hj. reflexivity. }
    destruct (traverse_lookup _ _ _ j (G k) T Hg) as (y & Hy & Hys).
    unfold align_sp, df_getitem in Hy. cbn [G fst snd columns] in Hy.
    rewrite lookup_fmap in Hy.
    destruct (columns veg' !! Some "sp") as [sp'|] eqn:Hsp';
      cbn [fmap option_fmap option_map obind omap] in Hy; [|discriminate].
    pose proof Hsp' as Hsp0. rewrite C in Hsp0.
    destruct (columns veg !! Some "sp") as [sp|] eqn:Hsp; [|discriminate].
    cbn [fmap option_fmap option_map] in Hsp0. apply (inj Some) in Hsp0.
    assert (Lst : length st' = length idx).
    { subst st'. apply take_rows_length. rewrite (W _ _ Hst). exact B. }
    assert (Lsp : length sp' = length idx).
    { subst sp'. apply take_rows_length. rewrite (W _ _ Hsp). exact B. }
    assert (R : take_rows (rows_of k st' 0) sp' = cells_where k st' sp').
    { apply (rows_of_cells k st' [] sp'). congruence. }
    rewrite R in Hy.
    destruct (str_join " " (cells_where k st' sp')) as [s|e] eqn:J;
      cbn [omap] in Hy; [|discriminate].
    apply Return_inj in Hy. subst y.
    exists sp, sp', s. split; [reflexivity|]. split; [reflexivity|].
    split; [rewrite list_lookup_fmap, Hys; reflexivity|].
    split; [exact J|].
    subst st' sp'. apply cells_where_perm.
    + rewrite (W _ _ Hst), (W _ _ Hsp). reflexivity.
    + rewrite (W _ _ Hst). exact P.
Qed.

Lemma prep_sp2vec_aligns_each_site_witness :
  let veg := mkFrame 3 (<[Some "st" := [PStr "B"; PStr "A"; PStr "A"]]>
                       (<[Some "sp" := [PStr "x"; PStr "y"; PStr "z"]]>
                       (<[Some "ab" := [PFloat f5; PFloat f10; PFloat f20]]> ∅))) in
  let r := mkFrame 2 (<[Some "st" := [PStr "A"; PStr "B"]]>
                     (<[Some "sp" := [PStr "z y"; PStr "x"]]> ∅)) in
  prep_sp2vec veg = Return r /\
  exists sites aligned : list pyval,
    columns r = <[Some "st" := sites]> (<[Some "sp" := aligned]> ∅) /\
    length aligned = length sites.
Proof.
  cbv zeta.
  assert (H : prep_sp2vec
                (mkFrame 3 (<[Some "st" := [PStr "B"; PStr "A"; PStr "A"]]>
                           (<[Some "sp" := [PStr "x"; PStr "y"; PStr "z"]]>
                           (<[Some "ab" := [PFloat f5; PFloat f10; PFloat f20]]> ∅))))
              = Return (mkFrame 2 (<[Some "st" := [PStr "A"; PStr "B"]]>
                                  (<[Some "sp" := [PStr "z y"; PStr "x"]]> ∅))))
    by (vm_compute; reflexivity).
  split; [exact H|].
  match type of H with
  | prep_sp2vec ?v = _ => assert (W : frame_wf v)
  end.
  { repeat (apply frame_wf_insert; [|reflexivity]). apply frame_wf_empty. }
  destruct (prep_sp2vec_aligns_each_site _ _ W H)
    as (arranged & st & st' & sites & aligned & _ & _ & _ & _ & Hc & Hl & _).
  exists sites, aligned. split; [exact Hc|exact Hl].
Defined.

(** *** When [prep_sp2vec] raises *)

Lemma str_join_outcome (sep : string) (l : list pyval) :
  (exists s, str_join sep l = Return s) \/ str_join sep l = Raise TypeError_object.
Proof.
  induction l as [|x l IH]; [left; eexists; reflexivity|].
  cbn [str_join]. destruct x as [|z|f|s]; try (right; reflexivity).
  destruct l as [|y l]; [left; eexists; reflexivity|].
  destruct IH as [[t ->]| ->]; [left; eexists; reflexivity|right; reflexivity].
Qed.

Lemma str_join_not_str (sep : string) (l : list pyval) (y : pyval) :
  y ∈ l -> (forall s, y <> PStr s) -> str_join sep l = Raise TypeError_object.
Proof.
  induction l as [|x l IH]; intros Hy N; [inversion Hy|].
  cbn [str_join]. destruct x as [|z|f|s]; try reflexivity.
  apply elem_of_cons in Hy as [->|Hy]; [destruct (N s eq_refl)|].
  destruct l as [|x' l]; [inversion Hy|].
  rewrite (IH Hy N). reflexivity.
Qed.

Lemma cells_where_elem {A : Type} (k : pyval) (a : list pyval) (b : list A)
      (i : nat) (x : pyval) (y : A) :
  a !! i = Some x -> b !! i = Some y -> cell_eqb x k = true -> y ∈ cells_where k a b.
Proof.
  revert b i. induction a as [|x0 a IH]; intros [|y0 b] [|i] Ha Hb E;
    try discriminate; cbn [cells_where].
  - simpl in Ha, Hb. inversion Ha; inversion Hb; subst. rewrite E. left.
  - simpl in Ha, Hb. destruct (cell_eqb x0 k); [right|]; apply (IH b i Ha Hb E).
Qed.

Lemma traverse_one_error {A B : Type} (f : A -> outcome B) (l : list A) (e : pyexn) :
  Forall (fun x => (exists y, f x = Return y) \/ f x = Raise e) l ->
  Exists (fun x => f x = Raise e) l ->
  traverse f l = Raise e.
Proof.
  induction 1 as [|x l Hx F IH]; intros E; [inversion E|].
  cbn [traverse]. destruct Hx as [[y Hy]|Hx].
  - rewrite Hy. cbn [obind]. inversion E as [? ? Hx'|? ? E']; subst; [congruence|].
    rewrite (IH E'). reflexivity.
  - rewrite Hx. reflexivity.
Qed.

Lemma uniques_all_missing (c seen : list pyval) :
  Forall (fun x => isna x = true) c -> uniques c seen = [].
Proof.
  induction 1 as [|x c Hx _ IH]; [reflexivity|].
  cbn [uniques]. rewrite Hx. exact IH.
Qed.

Lemma arrange_veg_with_st (veg : DataFrame) (st : list pyval) :
  columns veg !! Some "st" = Some st -> exists r, arrange_veg veg = Return r.
Proof.
  intros Hst. unfold arrange_veg, has_ab_ly, has_column.
  destruct (columns veg !! Some "ab") as [ab|] eqn:Hab;
    destruct (columns veg !! Some "ly") as [ly|] eqn:Hly;
    cbn [andb negb orb String.eqb Ascii.eqb Bool.eqb];
    try (eexists; reflexivity);
    (erewrite sort_values_return
       by (cbn [traverse fst snd]; unfold df_getitem;
           rewrite Hst, ?Hly, ?Hab; reflexivity));
    eexists; reflexivity.
Qed.

Lemma arrange_veg_without_st (veg : DataFrame) :
  columns veg !! Some "st" = None ->
  arrange_veg veg = Return veg \/ arrange_veg veg = Raise (KeyError_column (Some "st")).
Proof.
  intros Hst. unfold arrange_veg, has_ab_ly, has_column.
  destruct (columns veg !! Some "ab") as [ab|] eqn:Hab;
    destruct (columns veg !! Some "ly") as [ly|] eqn:Hly;
    cbn [andb negb orb String.eqb Ascii.eqb Bool.eqb];
    try (left; reflexivity);
    right; unfold sort_values; cbn [traverse fst snd]; unfold df_getitem;
    rewrite Hst; reflexivity.
Qed.

(** The steps of [prep_sp2vec] after [arrange_veg], on the arranged table. *)
Lemma prep_sp2vec_steps (veg veg' : DataFrame) (st' : list pyval) :
  arrange_veg veg = Return veg' -> columns veg' !! Some "st" = Some st' ->
  prep_sp2vec veg =
  obind (traverse (fun site_df => omap (fun s => (fst site_df, PStr s))
                                       (align_sp (snd site_df)))
           (map (fun k => (k, mkFrame (length (rows_of k st' 0))
                                      (take_rows (rows_of k st' 0) <$> columns veg')))
                (sort_by (fun a b => value_compare (cell_key_of a) (cell_key_of b))
                         (uniques st' []))))
        (fun sp_alignment =>
           Return (mkFrame (length sp_alignment)
                     (<[Some "st" := map fst sp_alignment]>
                        (<[Some "sp" := map snd sp_alignment]> ∅)))).
Proof.
  intros A Hst'. unfold prep_sp2vec. rewrite A. cbn [obind].
  unfold devide, groupby, df_getitem. rewrite Hst'. reflexivity.
Qed.

(** X11. When [prep_sp2vec] raises and when it returns an empty table.
    Without a column [st] it raises the KeyError of [st].  With a site in
    some row and no column [sp] it raises the KeyError of [sp].  If a row
    that has a site has a species that is no string, a missing name for
    one, it raises TypeError and no table is returned, whatever the other
    rows hold.  If no row has a site, the result is the table without rows,
    and the column [sp] is not even looked at. *)
Theorem prep_sp2vec_raises (veg : DataFrame) :
  frame_wf veg ->
  (columns veg !! Some "st" = None ->
   prep_sp2vec veg = Raise (KeyError_column (Some "st"))) /\
  (forall st i x,
     columns veg !! Some "st" = Some st -> st !! i = Some x -> isna x = false ->
     columns veg !! Some "sp" = None ->
     prep_sp2vec veg = Raise (KeyError_column (Some "sp"))) /\
  (forall st sp i x y,
     columns veg !! Some "st" = Some st -> columns veg !! Some "sp" = Some sp ->
     st !! i = Some x -> sp !! i = Some y ->
     isna x = false -> (forall s, y <> PStr s) ->
     prep_sp2vec veg = Raise TypeError_object) /\
  (forall st,
     columns veg !! Some "st" = Some st -> Forall (fun x => isna x = true) st ->
     prep_sp2vec veg
     = Return (mkFrame 0 (<[Some "st" := []]> (<[Some "sp" := []]> ∅)))).
Proof.
  intros W.
  assert (S : forall st, columns veg !! Some "st" = Some st ->
    exists veg' idx,
      arrange_veg veg = Return veg' /\ idx ≡ₚ seq 0 (nrows veg) /\
      (forall k, columns veg' !! k = take_rows idx <$> columns veg !! k) /\
      columns veg' !! Some "st" = Some (take_rows idx st) /\
      take_rows idx st ≡ₚ st).
  { intros st Hst. destruct (arrange_veg_with_st veg st Hst) as [veg' A].
    destruct (arrange_veg_rows veg veg' W A) as (idx & P & _ & C).
    exists veg', idx. split; [exact A|]. split; [exact P|]. split; [exact C|].
    split; [rewrite C, Hst; reflexivity|].
    apply take_rows_all. rewrite (W _ _ Hst). exact P. }
  split; [|split; [|split]].
  - intros Hst. unfold prep_sp2vec.
    destruct (arrange_veg_without_st veg Hst) as [-> | ->]; [|reflexivity].
    cbn [obind]. unfold devide, groupby, df_getitem. rewrite Hst. reflexivity.
  - intros st i x Hst Hi Nx Hsp.
    destruct (S st Hst) as (veg' & idx & A & P & C & Hst' & Pst).
    rewrite (prep_sp2vec_steps veg veg' _ A Hst').
    set (keys := sort_by _ (uniques (take_rows idx st) [])).
    assert (Hk : exists k ks, keys = k :: ks).
    { assert (Hx : x ∈ take_rows idx st).
      { rewrite Pst. eapply list_elem_of_lookup_2, Hi. }
      destruct (uniques_cover _ [] x Hx Nx) as [(s & Hs & _)|(u & Hu & _)];
        [inversion Hs|].
      assert (Hu' : u ∈ keys) by (unfold keys; rewrite sort_by_perm; exact Hu).
      destruct keys as [|k ks]; [inversion Hu'|]. exists k, ks. reflexivity. }
    destruct Hk as (k & ks & ->).
    cbn [map traverse]. unfold align_sp at 1, df_getitem. cbn [snd columns].
    rewrite lookup_fmap, C, Hsp. reflexivity.
  - intros st sp i x y Hst Hsp Hi Hy Nx Ny.
    destruct (S st Hst) as (veg' & idx & A & P & C & Hst' & Pst).
    rewrite (prep_sp2vec_steps veg veg' _ A Hst').
    set (keys := sort_by _ (uniques (take_rows idx st) [])).
    assert (Hsp' : columns veg' !! Some "sp" = Some (take_rows idx sp))
      by (rewrite C, Hsp; reflexivity).
    assert (B : Forall (fun i => (i < nrows veg)%nat) idx) by apply perm_seq_bound, P.
    assert (J : forall k,
      align_sp (mkFrame (length (rows_of k (take_rows idx st) 0))
                        (take_rows (rows_of k (take_rows idx st) 0) <$> columns veg'))
      = str_join " " (cells_where k (take_rows idx st) (take_rows idx sp))).
    { intros k. unfold align_sp, df_getitem. cbn [columns].
      rewrite lookup_fmap, Hsp'. cbn [fmap option_fmap option_map obind].
      rewrite (rows_of_cells_0 k (take_rows idx st) (take_rows idx sp)); [reflexivity|].
      rewrite !take_rows_length; [reflexivity|..].
      - rewrite (W _ _ Hsp). exact B.
      - rewrite (W _ _ Hst). exact B. }
    erewrite traverse_one_error; [reflexivity| |].
    + apply Forall_forall. intros g Hg. apply list_elem_of_fmap in Hg as (k & -> & _).
      cbn [fst snd]. rewrite J.
      destruct (str_join_outcome " " (cells_where k (take_rows idx st) (take_rows idx sp)))
        as [[s ->]| ->]; [left; eexists; reflexivity|right; reflexivity].
    + assert (Hx : x ∈ take_rows idx st).
      { rewrite Pst. eapply list_elem_of_lookup_2, Hi. }
      destruct (uniques_cover _ [] x Hx Nx) as [(s & Hs & _)|(u & Hu & E)];
        [inversion Hs|].
      apply Exists_exists. eexists. split.
      * apply list_elem_of_fmap. exists u. split; [reflexivity|].
        unfold keys. rewrite sort_by_perm. exact Hu.
      * cbn [fst snd]. rewrite J.
        rewrite (str_join_not_str " " _ y); [reflexivity| |exact Ny].
        rewrite cells_where_perm;
          [|rewrite (W _ _ Hst), (W _ _ Hsp); reflexivity
           |rewrite (W _ _ Hst); exact P].
        apply (cells_where_elem u st sp i x y Hi Hy E).
  - intros st Hst Hall.
    destruct (S st Hst) as (veg' & idx & A & P & C & Hst' & Pst).
    rewrite (prep_sp2vec_steps veg veg' _ A Hst').
    rewrite uniques_all_missing; [reflexivity|].
    rewrite Pst. exact Hall.
Qed.

Lemma prep_sp2vec_raises_witness :
  let veg := mkFrame 2 (<[Some "st" := [PStr "A"; PNone]]>
                       (<[Some "sp" := [PFloat nan; PStr "x"]]> ∅)) in
  frame_wf veg /\ prep_sp2vec veg = Raise TypeError_object.
Proof.
  cbv zeta.
  assert (W : frame_wf (mkFrame 2 (<[Some "st" := [PStr "A"; PNone]]>
                                  (<[Some "sp" := [PFloat nan; PStr "x"]]> ∅)))).
  { repeat (apply frame_wf_insert; [|reflexivity]). apply frame_wf_empty. }
  split; [exact W|].
  apply (proj1 (proj2 (proj2 (prep_sp2vec_raises _ W)))
               [PStr "A"; PNone] [PFloat nan; PStr "x"] 0%nat (PStr "A") (PFloat nan));
    try reflexivity.
  intros s. discriminate.
Defined.

(** ** [extract_veg] *)

Lemma df_getitem_list_columns (d : DataFrame) (cols : list colname)
      (cs : list (colname * list pyval)) :
  traverse (fun k => omap (pair k) (df_getitem d k)) cols = Return cs ->
  (forall k, k ∈ cols -> (list_to_map cs : gmap colname (list pyval)) !! k = columns d !! k
                         /\ is_Some (columns d !! k)) /\
  (forall k, k ∉ cols -> (list_to_map cs : gmap colname (list pyval)) !! k = None).
Proof.
  revert cs. induction cols as [|k0 cols IH]; intros cs; cbn [traverse].
  - intros H. apply Return_inj in H. subst cs. split.
    + intros k Hk. inversion Hk.
    + intros k _. apply lookup_empty.
  - unfold df_getitem at 1.
    destruct (columns d !! k0) as [c0|] eqn:H0; cbn [omap obind]; [|discriminate].
    destruct (traverse _ cols) as [cs'|e]; cbn [omap]; [|discriminate].
    intros H. apply Return_inj in H. subst cs.
    destruct (IH cs' eq_refl) as [I1 I2]. rewrite list_to_map_cons. split.
    + intros k Hk. destruct (decide (k = k0)) as [->|Hne].
      * rewrite lookup_insert_eq, H0. split; [reflexivity|eexists; reflexivity].
      * rewrite lookup_insert_ne by congruence.
        apply elem_of_cons in Hk as [Hk|Hk]; [contradiction|]. apply (I1 k Hk).
    + intros k Hk. apply not_elem_of_cons in Hk as [Hne Hk].
      rewrite lookup_insert_ne by congruence. apply (I2 k Hk).
Qed.

Lemma df_getitem_list_raises (d : DataFrame) (cols : list colname) (e : pyexn) :
  traverse (fun k => omap (pair k) (df_getitem d k)) cols = Raise e ->
  exists k, k ∈ cols /\ columns d !! k = None /\ e = KeyError_column k.
Proof.
  intros H. apply traverse_raise_inv in H as (k & Hk & Hr).
  exists k. split; [apply list_elem_of_In, Hk|].
  unfold df_getitem in Hr. destruct (columns d !! k); cbn [omap] in Hr; [discriminate|].
  split; [reflexivity|]. inversion Hr. reflexivity.
Qed.

(** X12. [extract_veg] returns a new table with the rows of the table it
    got and exactly the columns that were named, each under the label it has
    in that table: nothing is renamed, whatever the docstring says, so
    [has_ab_ly] finds an abundance or a layer in the result only if the
    caller's labels are literally [ab] and [ly].  If one of the labels named
    is no column, the call raises the KeyError of such a label. *)
Theorem extract_veg_selects_and_keeps_labels (veg : DataFrame) (st sp ab ly : colname) :
  let cols := [st; sp]
              ++ match ab with Some _ => [ab] | None => [] end
              ++ match ly with Some _ => [ly] | None => [] end in
  NoDup cols ->
  match extract_veg veg st sp ab ly with
  | Return r =>
      nrows r = nrows veg /\
      (forall k, k ∈ cols -> columns r !! k = columns veg !! k
                             /\ is_Some (columns veg !! k)) /\
      (forall k, k ∉ cols -> columns r !! k = None) /\
      (Some "ab" ∉ cols -> Some "ly" ∉ cols -> has_ab_ly r = "has_none")
  | Raise e =>
      exists k, k ∈ cols /\ columns veg !! k = None /\ e = KeyError_column k
  end.
Proof.
  intros cols _.
  assert (E : extract_veg veg st sp ab ly = df_getitem_list veg cols).
  { unfold extract_veg, cols. destruct ab, ly; reflexivity. }
  rewrite E. unfold df_getitem_list.
  destruct (traverse _ cols) as [cs|e] eqn:T; cbn [obind].
  - destruct (df_getitem_list_columns veg cols cs T) as [I1 I2].
    split; [reflexivity|]. split; [exact I1|]. split; [exact I2|].
    intros Hab Hly. unfold has_ab_ly, has_column. cbn [columns].
    rewrite (I2 _ Hab), (I2 _ Hly). reflexivity.
  - apply (df_getitem_list_raises veg cols e T).
Qed.

Lemma extract_veg_selects_and_keeps_labels_witness :
  let veg := mkFrame 1 (<[Some "st" := [PStr "A"]]>
                       (<[Some "sp" := [PStr "x"]]>
                       (<[Some "cover" := [PFloat f5]]>
                       (<[Some "layer" := [PStr "T"]]>
                       (<[Some "note" := [PNone]]> ∅))))) in
  NoDup [Some "st"; Some "sp"; Some "cover"; Some "layer"] /\
  exists r, extract_veg veg (Some "st") (Some "sp") (Some "cover") (Some "layer") = Return r /\
            columns r !! Some "cover" = Some [PFloat f5] /\
            columns r !! Some "ab" = None /\
            has_ab_ly r = "has_none".
Proof.
  cbv zeta.
  assert (ND : NoDup [Some "st"; Some "sp"; Some "cover"; Some "layer"]).
  { repeat (constructor;
            [rewrite ?elem_of_cons, elem_of_nil; intros H; intuition discriminate|]).
    constructor. }
  split; [exact ND|].
  pose proof (extract_veg_selects_and_keeps_labels
                (mkFrame 1 (<[Some "st" := [PStr "A"]]>
                           (<[Some "sp" := [PStr "x"]]>
                           (<[Some "cover" := [PFloat f5]]>
                           (<[Some "layer" := [PStr "T"]]>
                           (<[Some "note" := [PNone]]> ∅))))))
                (Some "st") (Some "sp") (Some "cover") (Some "layer") ND) as T.
  destruct (extract_veg _ (Some "st") (Some "sp") (Some "cover") (Some "layer"))
    as [r|e] eqn:E.
  - destruct T as (_ & I1 & I2 & H). exists r. split; [reflexivity|].
    split; [|split].
    + assert (G : Some "cover" ∈ [Some "st"; Some "sp"; Some "cover"; Some "layer"])
        by (do 2 right; left).
      rewrite (proj1 (I1 (Some "cover") G)). reflexivity.
    + apply I2. cbn [app]. intros G.
      rewrite ?elem_of_cons, elem_of_nil in G. intuition discriminate.
    + apply H; cbn [app]; intros G;
        rewrite ?elem_of_cons, elem_of_nil in G; intuition discriminate.
  - vm_compute in E. discriminate.
Defined.

(** ** [align_sp] *)

Lemma has_space_sep (a b : string) : has_space (a ++ String " "%char b) = true.
Proof.
  induction a as [|c a IH]; [reflexivity|].
  simpl. rewrite IH. apply orb_true_r.
Qed.

Lemma split_at_space (s s' u u' : string) :
  has_space s = false -> has_space s' = false ->
  (s ++ String " "%char u)%string = (s' ++ String " "%char u')%string ->
  s = s' /\ u = u'.
Proof.
  revert s'. induction s as [|c s IH]; intros [|c' s']; simpl;
    intros N N' E.
  - inversion E. split; reflexivity.
  - inversion E; subst c'. discriminate.
  - inversion E; subst c. discriminate.
  - inversion E; subst c'. apply orb_false_iff in N as [_ N], N' as [_ N'].
    destruct (IH s' N N' ltac:(assumption)) as [-> ->]. split; reflexivity.
Qed.

Lemma str_join_names (names : list string) :
  exists s, str_join " " (map PStr names) = Return s.
Proof.
  induction names as [|n names IH]; [eexists; reflexivity|].
  cbn [map str_join]. destruct names as [|n' names]; [eexists; reflexivity|].
  destruct IH as [t ->]. eexists. reflexivity.
Qed.

Lemma str_join_cons2 (n n' : string) (names : list string) (t : string) :
  str_join " " (map PStr (n' :: names)) = Return t ->
  str_join " " (map PStr (n :: n' :: names)) = Return (n ++ String " "%char t)%string.
Proof.
  intros H. change (str_join " " (map PStr (n :: n' :: names)))
    with (omap (fun t => (n ++ " " ++ t)%string) (str_join " " (map PStr (n' :: names)))).
  rewrite H. reflexivity.
Qed.

Lemma str_join_injective (names names' : list string) :
  names <> [] -> names' <> [] ->
  Forall (fun n => has_space n = false) names ->
  Forall (fun n => has_space n = false) names' ->
  str_join " " (map PStr names) = str_join " " (map PStr names') ->
  names = names'.
Proof.
  intros E0 E0' F. revert names' E0 E0'.
  induction F as [|n names Hn F IH]; intros names' E0 E0' F' H; [congruence|].
  destruct F' as [|n' names' Hn' F']; [congruence|].
  destruct names as [|m names], names' as [|m' names'].
  - cbn in H. inversion H. reflexivity.
  - destruct (str_join_names (m' :: names')) as [t Ht].
    rewrite (str_join_cons2 n' m' names' t Ht) in H. cbn in H. inversion H; subst n.
    rewrite has_space_sep in Hn. discriminate.
  - destruct (str_join_names (m :: names)) as [t Ht].
    rewrite (str_join_cons2 n m names t Ht) in H. cbn in H. inversion H; subst n'.
    rewrite has_space_sep in Hn'. discriminate.
  - destruct (str_join_names (m :: names)) as [t Ht].
    destruct (str_join_names (m' :: names')) as [t' Ht'].
    rewrite (str_join_cons2 n m names t Ht), (str_join_cons2 n' m' names' t' Ht') in H.
    apply Return_inj in H. destruct (split_at_space _ _ _ _ Hn Hn' H) as [-> ->].
    f_equal. apply IH; [discriminate|discriminate|exact F'|congruence].
Qed.

(** X13. [align_sp] joins the species names of the column [sp] by single
    spaces.  It raises KeyError without the column, and TypeError as soon as
    one cell is no string; otherwise it returns a string.  From the string
    the names can be told again as long as no name holds a space: two tables
    with space-free names that give the same string have the same names in
    the same order.  A name with a space breaks this: the one name
    "Quercus serrata" and the two names "Quercus", "serrata" give the same
    string. *)
Theorem align_sp_joins_the_names (veg : DataFrame) :
  (columns veg !! Some "sp" = None ->
   align_sp veg = Raise (KeyError_column (Some "sp"))) /\
  (forall c y, columns veg !! Some "sp" = Some c -> y ∈ c -> (forall s, y <> PStr s) ->
     align_sp veg = Raise TypeError_object) /\
  (forall names, columns veg !! Some "sp" = Some (map PStr names) ->
     exists s, align_sp veg = Return s) /\
  (forall veg' names names',
     columns veg !! Some "sp" = Some (map PStr names) ->
     columns veg' !! Some "sp" = Some (map PStr names') ->
     names <> [] -> names' <> [] ->
     Forall (fun n => has_space n = false) names ->
     Forall (fun n => has_space n = false) names' ->
     align_sp veg = align_sp veg' -> names = names') /\
  align_sp (mkFrame 1 (<[Some "sp" := [PStr "Quercus serrata"]]> ∅))
  = align_sp (mkFrame 2 (<[Some "sp" := [PStr "Quercus"; PStr "serrata"]]> ∅)).
Proof.
  unfold align_sp, df_getitem. split; [|split; [|split; [|split]]].
  - intros ->. reflexivity.
  - intros c y -> Hy N. cbn [obind]. apply (str_join_not_str " " c y Hy N).
  - intros names ->. cbn [obind]. apply str_join_names.
  - intros veg' names names' -> -> E E' F F' H. cbn [obind] in H.
    apply (str_join_injective names names' E E' F F' H).
  - vm_compute. reflexivity.
Qed.
